(** * Engine.IO server: payload framing and socket state machine

    A shallow embedding of the Go sources of the engine.io server:

    - package [parser], the payload codec: the length-prefixed framing of a
      batch of packets ([writePacket], [Encode], [Decode], [readPacket],
      [readPacketLength], [readPacketString]);
    - package [eio], the socket: the per-session state machine ([Send], [Close],
      [setTransport], [getTransport], [getTransportBackup], [Transport],
      [accept], the registration of handlers, [isHeartbeat], [isLost],
      [newSocket]).

    Go values are modelled as follows.  A [[]byte] is a [list byte]; Go's
    [int] is [Z]; a [uint32] is an [N] below [2^32]; a function returning
    [(T, error)] with exactly one of the two set returns a [result]; a
    function that may panic returns a [go].  The parts of Go's standard
    library the sources call ([unicode/utf8], [strconv], [fmt]), and
    [encoding/base64], are modelled from their documented behaviour. *)

From Stdlib Require Import List ZArith NArith Lia Bool String Ascii.
From Stdlib.Strings Require Import Byte.
Import ListNotations.

Definition bytes := list byte.

(** A Go [error] value is identified with its message. *)
Definition error := string.

(** [(T, error)] where exactly one component is meaningful. *)
Inductive result (A : Type) : Type :=
| Ok (a : A)
| Err (e : error).
Arguments Ok {A} a.
Arguments Err {A} e.

(** A Go call either returns or panics. *)
Inductive go (A : Type) : Type :=
| Done (a : A)
| Panic (msg : string).
Arguments Done {A} a.
Arguments Panic {A} msg.

Definition b2n (b : byte) : N := Byte.to_N b.

(** Conversion of a number to a byte, truncating as Go's [byte(x)] does. *)
Definition n2b (n : N) : byte :=
  match Byte.of_N (n mod 256) with
  | Some b => b
  | None => "000"%byte
  end.

Definition str (s : string) : bytes := list_byte_of_string s.

(* ================================================================== *)
(** * unicode/utf8 *)

Module utf8.
Local Open Scope N_scope.

Definition RuneError : N := 0xFFFD.
Definition RuneSelf : N := 0x80.

Definition maskx : N := 0x3F.
Definition mask2 : N := 0x1F.
Definition mask3 : N := 0x0F.
Definition mask4 : N := 0x07.

Definition locb : N := 0x80.
Definition hicb : N := 0xBF.

(** Information bytes of the [first] table. *)
Definition xx : N := 0xF1.
Definition as_ : N := 0xF0.
Definition s1 : N := 0x02.
Definition s2 : N := 0x13.
Definition s3 : N := 0x03.
Definition s4 : N := 0x23.
Definition s5 : N := 0x34.
Definition s6 : N := 0x04.
Definition s7 : N := 0x44.

(** The table [first], indexed by the first byte of a sequence. *)
Definition first (b : N) : N :=
  if b <? 0x80 then as_
  else if b <? 0xC2 then xx
  else if b <? 0xE0 then s1
  else if b =? 0xE0 then s2
  else if b <? 0xED then s3
  else if b =? 0xED then s4
  else if b <? 0xF0 then s3
  else if b =? 0xF0 then s5
  else if b <? 0xF4 then s6
  else if b =? 0xF4 then s7
  else xx.

(** The table [acceptRanges]: bounds of the second byte. *)
Definition acceptRanges (i : N) : N * N :=
  match i with
  | 0 => (locb, hicb)
  | 1 => (0xA0, hicb)
  | 2 => (locb, 0x9F)
  | 3 => (0x90, hicb)
  | 4 => (locb, 0x8F)
  | _ => (0, 0)
  end%N.

Definition outside (lo hi c : N) : bool := (c <? lo) || (hi <? c).

(** [DecodeRune p]: the first rune of [p] and its width in bytes;
    [(RuneError, 0)] on empty input, [(RuneError, 1)] on an invalid or
    short encoding. *)
Definition DecodeRune (p : bytes) : N * nat :=
  match p with
  | [] => (RuneError, 0%nat)
  | c0 :: t0 =>
    let p0 := b2n c0 in
    let x := first p0 in
    if as_ <=? x then
      ((if x =? as_ then p0 else RuneError), 1%nat)
    else
      let sz := N.land x 7 in
      let '(lo, hi) := acceptRanges (N.shiftr x 4) in
      if N.of_nat (List.length p) <? sz then (RuneError, 1%nat)
      else
        match t0 with
        | [] => (RuneError, 1%nat)
        | c1 :: t1 =>
          let b1 := b2n c1 in
          if outside lo hi b1 then (RuneError, 1%nat)
          else if sz <=? 2 then
            (N.lor (N.shiftl (N.land p0 mask2) 6) (N.land b1 maskx), 2%nat)
          else
            match t1 with
            | [] => (RuneError, 1%nat)
            | c2 :: t2 =>
              let b2 := b2n c2 in
              if outside locb hicb b2 then (RuneError, 1%nat)
              else if sz <=? 3 then
                (N.lor (N.lor (N.shiftl (N.land p0 mask3) 12)
                              (N.shiftl (N.land b1 maskx) 6))
                       (N.land b2 maskx), 3%nat)
              else
                match t2 with
                | [] => (RuneError, 1%nat)
                | c3 :: _ =>
                  let b3 := b2n c3 in
                  if outside locb hicb b3 then (RuneError, 1%nat)
                  else
                    (N.lor (N.lor (N.lor (N.shiftl (N.land p0 mask4) 18)
                                         (N.shiftl (N.land b1 maskx) 12))
                                  (N.shiftl (N.land b2 maskx) 6))
                           (N.land b3 maskx), 4%nat)
                end
            end
        end
  end%N.

Definition width (p : bytes) : nat := snd (DecodeRune p).

(** [RuneCount p]: the number of runes in [p]; erroneous and short
    encodings count as single runes of width one.  The loop advances by
    the width of each rune; [fuel] bounds the number of iterations by the
    number of bytes. *)
Fixpoint RuneCount_loop (fuel : nat) (p : bytes) (n : Z) : Z :=
  match fuel with
  | O => n
  | S fuel' =>
    match p with
    | [] => n
    | _ :: _ => RuneCount_loop fuel' (skipn (width p) p) (n + 1)
    end
  end.

Definition RuneCount (p : bytes) : Z := RuneCount_loop (List.length p) p 0.

(** [Valid p]: [p] consists entirely of valid UTF-8-encoded runes. *)
Fixpoint Valid_loop (fuel : nat) (p : bytes) : bool :=
  match fuel with
  | O => true
  | S fuel' =>
    match p with
    | [] => true
    | _ :: _ =>
      let '(r, w) := DecodeRune p in
      if (r =? RuneError) && (w =? 1)%nat then false
      else Valid_loop fuel' (skipn w p)
    end
  end.

Definition Valid (p : bytes) : bool := Valid_loop (List.length p) p.

Definition surrogateMin : N := 0xD800.
Definition surrogateMax : N := 0xDFFF.
Definition MaxRune : N := 0x10FFFF.

(** [ValidRune r]: [r] can be legally encoded as UTF-8. *)
Definition ValidRune (r : N) : bool :=
  ((r <? surrogateMin) || ((surrogateMax <? r) && (r <=? MaxRune)))%N.

(** [AppendRune nil r]: the UTF-8 encoding of [r]; an invalid rune is
    encoded as [RuneError]. *)
Definition EncodeRune (r : N) : bytes :=
  let r := if ValidRune r then r else RuneError in
  if r <? 0x80 then [n2b r]
  else if r <? 0x800 then
    [n2b (N.lor 0xC0 (N.shiftr r 6)); n2b (N.lor 0x80 (N.land r maskx))]
  else if r <? 0x10000 then
    [n2b (N.lor 0xE0 (N.shiftr r 12));
     n2b (N.lor 0x80 (N.land (N.shiftr r 6) maskx));
     n2b (N.lor 0x80 (N.land r maskx))]
  else
    [n2b (N.lor 0xF0 (N.shiftr r 18));
     n2b (N.lor 0x80 (N.land (N.shiftr r 12) maskx));
     n2b (N.lor 0x80 (N.land (N.shiftr r 6) maskx));
     n2b (N.lor 0x80 (N.land r maskx))]%N.

(** A byte below [RuneSelf] is a rune of its own. *)
Definition isASCII (c : byte) : Prop := b2n c < RuneSelf.

(** The UTF-8 text of a sequence of code points. *)
Definition encode_runes (rs : list N) : bytes := flat_map EncodeRune rs.

End utf8.

(* ================================================================== *)
(** * strconv and fmt *)

Module strconv.
Local Open Scope N_scope.

Definition digit (d : N) : byte := n2b (48 + d).

Definition isDigit (c : byte) : bool :=
  ((48 <=? b2n c) && (b2n c <=? 57))%N.

(** Decimal digits of [n], most significant first.  [fuel] is the number
    of binary digits of [n], which bounds the number of decimal ones. *)
Fixpoint digits (fuel : nat) (n : N) (acc : bytes) : bytes :=
  match fuel with
  | O => acc
  | S fuel' =>
    let acc' := digit (n mod 10) :: acc in
    if (n / 10 =? 0)%N then acc' else digits fuel' (n / 10) acc'
  end.

Definition utoa (n : N) : bytes := digits (S (N.to_nat (N.log2 n))) n [].

(** [Itoa i], which is also what [fmt.Sprintf("%d", i)] prints. *)
Definition Itoa (i : Z) : bytes :=
  if (i <? 0)%Z then "-"%byte :: utoa (Z.to_N (- i)) else utoa (Z.to_N i).

Definition ErrSyntax : error := "invalid syntax"%string.
Definition ErrRange : error := "value out of range"%string.

(** Value of a run of decimal digits; [None] when a byte is not a digit. *)
Fixpoint parseDigits (s : bytes) (acc : N) : option N :=
  match s with
  | [] => Some acc
  | c :: t => if isDigit c then parseDigits t (10 * acc + (b2n c - 48)) else None
  end.

Definition minInt : Z := - 2 ^ 63.
Definition maxInt : Z := 2 ^ 63 - 1.

(** [Atoi s]: an optional sign followed by one or more decimal digits,
    the value within the range of [int]. *)
Definition Atoi (s : bytes) : result Z :=
  match s with
  | [] => Err ErrSyntax
  | c :: t =>
    let '(neg, ds) :=
      if Byte.eqb c "-"%byte then (true, t)
      else if Byte.eqb c "+"%byte then (false, t)
      else (false, s) in
    match ds with
    | [] => Err ErrSyntax
    | _ :: _ =>
      match parseDigits ds 0 with
      | None => Err ErrSyntax
      | Some v =>
        let z := if neg then (- Z.of_N v)%Z else Z.of_N v in
        if ((minInt <=? z) && (z <=? maxInt))%Z then Ok z else Err ErrRange
      end
    end
  end.

End strconv.

(* ================================================================== *)
(** * encoding/base64 (standard alphabet, padded) *)

Module base64.
Local Open Scope N_scope.

Definition pad : byte := "="%byte.

(** The standard alphabet: [A-Z], [a-z], [0-9], [+], [/]. *)
Definition encodeStd (i : N) : byte :=
  if i <? 26 then n2b (65 + i)
  else if i <? 52 then n2b (97 + (i - 26))
  else if i <? 62 then n2b (48 + (i - 52))
  else if i =? 62 then "+"%byte
  else "/"%byte.

Definition decodeStd (c : byte) : option N :=
  let n := b2n c in
  if (65 <=? n) && (n <=? 90) then Some (n - 65)
  else if (97 <=? n) && (n <=? 122) then Some (n - 97 + 26)
  else if (48 <=? n) && (n <=? 57) then Some (n - 48 + 52)
  else if n =? 43 then Some 62
  else if n =? 47 then Some 63
  else None.

(** Three bytes make a 24-bit group, written as four 6-bit digits; a
    final group of one or two bytes is padded with [=]. *)
Fixpoint EncodeToString (src : bytes) : bytes :=
  match src with
  | [] => []
  | [a] =>
    let v := b2n a * 65536 in
    [encodeStd (v / 262144); encodeStd (v / 4096 mod 64); pad; pad]
  | [a; b] =>
    let v := b2n a * 65536 + b2n b * 256 in
    [encodeStd (v / 262144); encodeStd (v / 4096 mod 64);
     encodeStd (v / 64 mod 64); pad]
  | a :: b :: c :: t =>
    let v := b2n a * 65536 + b2n b * 256 + b2n c in
    encodeStd (v / 262144) :: encodeStd (v / 4096 mod 64)
      :: encodeStd (v / 64 mod 64) :: encodeStd (v mod 64)
      :: EncodeToString t
  end.

Definition CorruptInputError : error := "illegal base64 data"%string.

Fixpoint DecodeString (s : bytes) : result bytes :=
  match s with
  | [] => Ok []
  | c0 :: c1 :: c2 :: c3 :: t =>
    match decodeStd c0, decodeStd c1 with
    | Some d0, Some d1 =>
      if Byte.eqb c3 pad then
        match t with
        | _ :: _ => Err CorruptInputError
        | [] =>
          if Byte.eqb c2 pad then
            Ok [n2b ((d0 * 64 + d1) * 4096 / 65536)]
          else
            match decodeStd c2 with
            | Some d2 =>
              let v := ((d0 * 64 + d1) * 64 + d2) * 64 in
              Ok [n2b (v / 65536); n2b (v / 256 mod 256)]
            | None => Err CorruptInputError
            end
        end
      else
        match decodeStd c2, decodeStd c3 with
        | Some d2, Some d3 =>
          let v := ((d0 * 64 + d1) * 64 + d2) * 64 + d3 in
          match DecodeString t with
          | Ok r => Ok (n2b (v / 65536) :: n2b (v / 256 mod 256) :: n2b (v mod 256) :: r)
          | Err e => Err e
          end
        | _, _ => Err CorruptInputError
        end
    | _, _ => Err CorruptInputError
    end
  | _ => Err CorruptInputError
  end.

End base64.

(* ================================================================== *)
(** * package parser *)

Module parser.

(** ** Packets

    The file that declares [Packet], its constructors [NewPacket] and
    [NewPacketCustom] and the two single-packet encoders [stringEncoder]
    and [base64Encoder] is not among the sources; the payload codec and the
    socket only use them. *)

(** Modelled from the spec: the type [PacketType] is missing.  A packet has
    a type drawn from the closed set OPEN, CLOSE, PING, PONG, MESSAGE,
    UPGRADE, NOOP, written on the wire as the digit ['0'+type]. *)
Inductive PacketType : Type :=
| OPEN | CLOSE | PING | PONG | MESSAGE | UPGRADE | NOOP.

Definition PacketType_code (t : PacketType) : N :=
  match t with
  | OPEN => 0 | CLOSE => 1 | PING => 2 | PONG => 3
  | MESSAGE => 4 | UPGRADE => 5 | NOOP => 6
  end%N.

Definition PacketType_of_code (n : N) : option PacketType :=
  match n with
  | 0 => Some OPEN | 1 => Some CLOSE | 2 => Some PING | 3 => Some PONG
  | 4 => Some MESSAGE | 5 => Some UPGRADE | 6 => Some NOOP
  | _ => None
  end%N.

(** Modelled from the spec: the type [PacketOption] and the constant
    [BINARY] are missing.  An option flag distinguishes the nature of the
    payload, a string or an opaque byte sequence; the option set of a
    packet holds that one flag, and [0] is the empty set. *)
Inductive PacketOption : Type :=
| NoOption
| BINARY.

(** Bitwise and of two option sets, Go's [&]. *)
Definition opt_and (a b : PacketOption) : PacketOption :=
  match a, b with
  | BINARY, BINARY => BINARY
  | _, _ => NoOption
  end.

Definition opt_eqb (a b : PacketOption) : bool :=
  match a, b with
  | NoOption, NoOption | BINARY, BINARY => true
  | _, _ => false
  end.

(** Modelled from the spec: the struct [Packet] is missing.  A packet has a
    type, a payload and an option flag. *)
Record Packet : Type := mkPacket {
  Type_ : PacketType;
  Data : bytes;
  Option : PacketOption
}.

(** What an application hands to [Send]: a string or a byte slice. *)
Inductive message : Type :=
| Text (s : bytes)
| Bytes (b : bytes).

(** Modelled from the spec: the constructor [NewPacketCustom] is missing;
    it is called with a type, a payload and an option set. *)
Definition NewPacketCustom (t : PacketType) (data : bytes) (o : PacketOption) : Packet :=
  mkPacket t data o.

(** Modelled from the spec: the constructor [NewPacket] is missing; the
    payload is either a string or an opaque byte sequence, and the flag
    says which. *)
Definition NewPacket (t : PacketType) (m : message) : Packet :=
  match m with
  | Text s => NewPacketCustom t s NoOption
  | Bytes b => NewPacketCustom t b BINARY
  end.

(** A single-packet encoder: the interface of [stringEncoder] and
    [base64Encoder]. *)
Record encoder : Type := {
  encode : Packet -> result bytes;
  decode : bytes -> result Packet
}.

(** The digit ['0'+type] and its reading. *)
Definition typeDigit (t : PacketType) : byte := n2b (48 + PacketType_code t).

Definition readType (c : byte) : result PacketType :=
  match PacketType_of_code (b2n c - 48) with
  | Some t => if (48 <=? b2n c)%N then Ok t else Err "invalid packet type"%string
  | None => Err "invalid packet type"%string
  end.

(** Modelled from the spec: [stringEncoder] is missing.  Its output is the
    single character ['0'+type] concatenated with the payload as UTF-8
    text; input of opaque bytes, a packet whose [BINARY] flag is set, is
    rejected.  Empty input, an unknown type digit and invalid UTF-8 are
    errors. *)
Definition stringEncoder : encoder := {|
  encode := fun packet =>
    if opt_eqb (opt_and (Option packet) BINARY) BINARY
    then Err "binary packet given to the string encoder"%string
    else if utf8.Valid (Data packet)
    then Ok (typeDigit (Type_ packet) :: Data packet)
    else Err "invalid UTF-8"%string;
  decode := fun input =>
    match input with
    | [] => Err "empty input"%string
    | c :: body =>
      match readType c with
      | Err e => Err e
      | Ok t =>
        if utf8.Valid body then Ok (mkPacket t body NoOption)
        else Err "invalid UTF-8"%string
      end
    end
|}.

(** Modelled from the spec: [base64Encoder] is missing.  Its output is the
    literal character ['b'], then the single character ['0'+type], then
    the base64, standard alphabet and padded, of the byte payload; the
    decoder strips the prefix before decoding.  Invalid base64 is an
    error. *)
Definition base64Encoder : encoder := {|
  encode := fun packet =>
    Ok ("b"%byte :: typeDigit (Type_ packet) :: base64.EncodeToString (Data packet));
  decode := fun input =>
    match input with
    | c :: d :: body =>
      if Byte.eqb c "b"%byte then
        match readType d with
        | Err e => Err e
        | Ok t =>
          match base64.DecodeString body with
          | Err e => Err e
          | Ok data => Ok (mkPacket t data BINARY)
          end
        end
      else Err "invalid binary packet"%string
    | _ => Err "empty input"%string
    end
|}.

(** ** The payload codec *)

Definition writePacket (bf : bytes) (packet : Packet) : result bytes :=
  if negb (opt_eqb (opt_and (Option packet) BINARY) BINARY) then
    match encode stringEncoder packet with
    | Err err => Err err
    | Ok data =>
      let length := utf8.RuneCount data in
      Ok (bf ++ (strconv.Itoa length ++ str ":") ++ data)
    end
  else
    match encode base64Encoder packet with
    | Err err => Err err
    | Ok data =>
      let length := Z.of_nat (List.length data) in
      Ok (bf ++ (strconv.Itoa length ++ str ":") ++ data)
    end.

(** The body of [Encode]'s loop over the packets, threading the buffer. *)
Fixpoint Encode_loop (bf : bytes) (packets : list Packet) : result bytes :=
  match packets with
  | [] => Ok bf
  | it :: packets' =>
    match writePacket bf it with
    | Err err => Err err
    | Ok bf' => Encode_loop bf' packets'
    end
  end.

Definition Encode (packets : list Packet) : result bytes :=
  if (List.length packets <? 1)%nat then Err "input packets is empty"%string
  else Encode_loop [] packets.

Definition readPacket (input : bytes) : go (result Packet) :=
  match input with
  | [] => Panic "index out of range"
  | c :: _ =>
    if negb (Byte.eqb c "b"%byte) then Done (decode stringEncoder input)
    else Done (decode base64Encoder input)
  end.

(** Index of the first [':'] at or after position [i]. *)
Fixpoint indexColon (input : bytes) (i : nat) : option nat :=
  match input with
  | [] => None
  | c :: input' =>
    if negb (Byte.eqb c ":"%byte) then indexColon input' (S i) else Some i
  end.

Definition readPacketLength (input : bytes) : Z * bytes * option error :=
  match indexColon input 0 with
  | Some i =>
    match strconv.Atoi (firstn i input) with
    | Err err => (0%Z, [], Some err)
    | Ok size => (size, skipn (i + 1) input, None)
    end
  | None => (0%Z, [], Some "invalid payload string"%string)
  end.

(** The loop of [readPacketString]: [size] counts the runes still to
    walk (the loop stops when it is not positive), [i] is the index
    reached. *)
Fixpoint readPacketString_loop (size : nat) (input : bytes) (i : nat) : nat :=
  match size with
  | O => i
  | S size' =>
    if (i <? List.length input)%nat then
      let '(_, width) := utf8.DecodeRune (skipn i input) in
      readPacketString_loop size' input (i + width)
    else i
  end.

Definition readPacketString (input : bytes) (size : Z) : bytes * bytes * option error :=
  let i := readPacketString_loop (Z.to_nat size) input 0 in
  (firstn i input, skipn i input, None).

(** The loop of [Decode].  Every iteration either ends the loop or
    shortens [rest]; [fuel] bounds the number of iterations and [None]
    means that it ran out. *)
Fixpoint Decode_loop (fuel : nat) (size : Z) (err : option error)
         (rest : bytes) (packets : list Packet)
  : option (go (list Packet * option error)) :=
  match fuel with
  | O => None
  | S fuel' =>
    if (0 <? List.length rest)%nat then
      if (size =? 0)%Z then
        let '(size', rest', err') := readPacketLength rest in
        Decode_loop fuel' size' err' rest' packets
      else
        let '(content, rest', _) := readPacketString rest size in
        match readPacket content with
        | Panic msg => Some (Panic msg)
        | Done (Err err') => Some (Done ([], Some err'))
        | Done (Ok packet) => Decode_loop fuel' 0%Z None rest' (packets ++ [packet])
        end
    else Some (Done (packets, err))
  end.

Definition Decode (input : bytes) : option (go (list Packet * option error)) :=
  Decode_loop (S (List.length input)) 0%Z None input [].

Definition DecodeString (s : bytes) : option (go (list Packet * option error)) :=
  Decode s.

End parser.

(* ================================================================== *)
(** * package eio: the socket *)

Module eio.
Import parser.

(** A [Transport] interface value is a reference to a transport object,
    and a registered handler is a reference to an application function.
    What the transports and the handlers do is not part of the socket:
    every call the socket makes on them is recorded, in order, in the
    [trace] of the world.  The registration functions wrap a handler so
    that its panics are recovered; a call of a handler returns. *)
Definition Transport := nat.
Definition handler := nat.

Inductive event : Type :=
| TransportWrite (t : Transport) (packet : Packet)
| TransportClose (t : Transport)
| TransportUpgradeEnd (t : Transport) (next : Transport)
| MsgHandler (fn : handler) (data : bytes)
| UpgradeHandler (fn : handler)
| CloseHandler (fn : handler) (reason : string).

Record socketImpl : Type := mkSocket {
  id : string;
  heartbeat : N;
  msgHandlers : list handler;
  upgradeHandlers : list handler;
  errorHandlers : list handler;
  closeHandlers : list handler;
  transportBackup : option Transport;
  transportPrimary : option Transport
}.

(** A goroutine started by the socket and not yet run: the answer to the
    PING [packet]. *)
Inductive goroutine : Type :=
| PingReply (packet : Packet).

Record world : Type := mkWorld {
  sock : socketImpl;
  trace : list event;
  spawned : list goroutine
}.

(** ** The monad of socket methods: state and panics *)

Definition M (A : Type) : Type := world -> go A * world.

Definition ret {A} (a : A) : M A := fun w => (Done a, w).

Definition bind {A B} (m : M A) (k : A -> M B) : M B :=
  fun w =>
    match m w with
    | (Done a, w') => k a w'
    | (Panic msg, w') => (Panic msg, w')
    end.

Definition panic {A} (msg : string) : M A := fun w => (Panic msg, w).

Notation "x <- m ;; k" := (bind m (fun x => k))
  (at level 61, m at next level, right associativity).
Notation "m ;;; k" := (bind m (fun _ => k))
  (at level 61, right associativity).

Definition this : M socketImpl := fun w => (Done (sock w), w).

Definition update (f : socketImpl -> socketImpl) : M unit :=
  fun w => (Done tt, mkWorld (f (sock w)) (trace w) (spawned w)).

Definition emit (e : event) : M unit :=
  fun w => (Done tt, mkWorld (sock w) (trace w ++ [e]) (spawned w)).

Definition spawn (g : goroutine) : M unit :=
  fun w => (Done tt, mkWorld (sock w) (trace w) (spawned w ++ [g])).

Fixpoint for_each {A} (l : list A) (body : A -> M unit) : M unit :=
  match l with
  | [] => ret tt
  | x :: l' => body x ;;; for_each l' body
  end.

Definition set_heartbeat (v : N) (p : socketImpl) : socketImpl :=
  mkSocket (id p) v (msgHandlers p) (upgradeHandlers p) (errorHandlers p)
           (closeHandlers p) (transportBackup p) (transportPrimary p).

Definition set_transportBackup (t : option Transport) (p : socketImpl) : socketImpl :=
  mkSocket (id p) (heartbeat p) (msgHandlers p) (upgradeHandlers p) (errorHandlers p)
           (closeHandlers p) t (transportPrimary p).

Definition set_transportPrimary (t : option Transport) (p : socketImpl) : socketImpl :=
  mkSocket (id p) (heartbeat p) (msgHandlers p) (upgradeHandlers p) (errorHandlers p)
           (closeHandlers p) (transportBackup p) t.

Definition set_closeHandlers (l : list handler) (p : socketImpl) : socketImpl :=
  mkSocket (id p) (heartbeat p) (msgHandlers p) (upgradeHandlers p) (errorHandlers p)
           l (transportBackup p) (transportPrimary p).

Definition set_msgHandlers (l : list handler) (p : socketImpl) : socketImpl :=
  mkSocket (id p) (heartbeat p) l (upgradeHandlers p) (errorHandlers p)
           (closeHandlers p) (transportBackup p) (transportPrimary p).

Definition set_errorHandlers (l : list handler) (p : socketImpl) : socketImpl :=
  mkSocket (id p) (heartbeat p) (msgHandlers p) (upgradeHandlers p) l
           (closeHandlers p) (transportBackup p) (transportPrimary p).

Definition set_upgradeHandlers (l : list handler) (p : socketImpl) : socketImpl :=
  mkSocket (id p) (heartbeat p) (msgHandlers p) l (errorHandlers p)
           (closeHandlers p) (transportBackup p) (transportPrimary p).

Section Socket.

(** The [Transport] interface is declared outside the sources.  The error
    a transport returns from [write] and from [close] may depend on
    everything that happened before; [upgradeEnd] returns nothing. *)
Variable write_result : list event -> Transport -> Packet -> option error.
Variable close_result : list event -> Transport -> option error.

Definition write (t : Transport) (packet : Packet) : M (option error) :=
  fun w =>
    (Done (write_result (trace w) t packet),
     mkWorld (sock w) (trace w ++ [TransportWrite t packet]) (spawned w)).

Definition close (t : Transport) : M (option error) :=
  fun w =>
    (Done (close_result (trace w) t),
     mkWorld (sock w) (trace w ++ [TransportClose t]) (spawned w)).

Definition upgradeEnd (t next : Transport) : M unit :=
  emit (TransportUpgradeEnd t next).

Definition isHeartbeat (p : socketImpl) : bool := (heartbeat p =? 0)%N.

Definition OnClose (fn : option handler) : M unit :=
  match fn with
  | None => ret tt
  | Some h => update (fun p => set_closeHandlers (closeHandlers p ++ [h]) p)
  end.

Definition OnMessage (fn : option handler) : M unit :=
  match fn with
  | None => ret tt
  | Some h => update (fun p => set_msgHandlers (msgHandlers p ++ [h]) p)
  end.

Definition OnError (fn : option handler) : M unit :=
  match fn with
  | None => ret tt
  | Some h => update (fun p => set_errorHandlers (errorHandlers p ++ [h]) p)
  end.

Definition OnUpgrade (fn : option handler) : M unit :=
  match fn with
  | None => ret tt
  | Some h => update (fun p => set_upgradeHandlers (upgradeHandlers p ++ [h]) p)
  end.

Definition Send (m : message) : M (option error) :=
  p <- this ;;
  if negb (isHeartbeat p) then
    ret (Some ("socket#" ++ id p ++ " is closed")%string)
  else
    let packet := NewPacket MESSAGE m in
    match transportBackup p with
    | Some t => write t packet
    | None =>
      match transportPrimary p with
      | Some t => write t packet
      | None => panic "invalid memory address or nil pointer dereference"
      end
    end.

Definition Close : M unit :=
  p <- this ;;
  if negb (isHeartbeat p) then ret tt
  else
    update (set_heartbeat 0) ;;;
    reason <- match transportPrimary p with
              | Some t =>
                err <- close t ;;
                ret (match err with Some e => e | None => EmptyString end)
              | None => ret EmptyString
              end ;;
    reason <- match transportBackup p with
              | Some t =>
                err <- close t ;;
                ret (match err with
                     | Some e =>
                       ((if (0 <? String.length reason)%nat
                         then reason ++ ", " else reason) ++ e)%string
                     | None => reason
                     end)
              | None => ret reason
              end ;;
    for_each (closeHandlers p) (fun fn => emit (CloseHandler fn reason)).

Definition setTransport (t : Transport) : M (option error) :=
  p <- this ;;
  match transportPrimary p with
  | Some _ => ret (Some "transports is full"%string)
  | None =>
    match transportBackup p with
    | None => update (set_transportBackup (Some t)) ;;; ret None
    | Some _ => update (set_transportPrimary (Some t)) ;;; ret None
    end
  end.

Definition getTransport : M Transport :=
  p <- this ;;
  match transportPrimary p, transportBackup p with
  | Some t, _ => ret t
  | None, Some t => ret t
  | None, None => panic "transport unavailable"
  end.

Definition getTransportBackup : M Transport :=
  p <- this ;;
  match transportPrimary p, transportBackup p with
  | Some _, Some t => ret t
  | _, _ => panic "old transport unavailable"
  end.

(** The body of the goroutine that answers a PING; [now32] is the
    value of the clock when it runs. *)
Definition pingReply (now32 : N) (packet : Packet) : M unit :=
  p <- this ;;
  (if isHeartbeat p then update (set_heartbeat now32) else ret tt) ;;;
  let pong := NewPacketCustom PONG (Data packet) NoOption in
  t <- getTransport ;;
  _ <- write t pong ;;
  ret tt.

Definition accept (packet : Packet) : M (option error) :=
  match Type_ packet with
  | CLOSE => Close ;;; ret None
  | UPGRADE =>
    p <- this ;;
    match transportPrimary p, transportBackup p with
    | Some tPrimary, Some tBackup =>
      upgradeEnd tBackup tPrimary ;;;
      update (set_transportBackup None) ;;;
      err <- close tBackup ;;
      match err with
      | Some e => ret (Some e)
      | None =>
        for_each (upgradeHandlers p) (fun fn => emit (UpgradeHandler fn)) ;;;
        ret None
      end
    | _, _ =>
      for_each (upgradeHandlers p) (fun fn => emit (UpgradeHandler fn)) ;;;
      ret None
    end
  | PING => spawn (PingReply packet) ;;; ret None
  | MESSAGE =>
    p <- this ;;
    for_each (msgHandlers p) (fun fn => emit (MsgHandler fn (Data packet))) ;;;
    ret None
  | t =>
    ret (Some ("unsupport packet: "
               ++ string_of_list_byte (strconv.Itoa (Z.of_N (PacketType_code t))))%string)
  end.

(** Run the oldest goroutine that has not run yet. *)
Definition schedule (now32 : N) : M unit :=
  fun w =>
    match spawned w with
    | [] => (Done tt, w)
    | PingReply packet :: rest =>
      pingReply now32 packet (mkWorld (sock w) (trace w) rest)
    end.

(** ** Sessions *)

(** How many times the close handler [fn] was fired in a trace. *)
Fixpoint fired (fn : handler) (tr : list event) : nat :=
  match tr with
  | [] => 0
  | CloseHandler fn' _ :: tr' =>
    if Nat.eqb fn fn' then S (fired fn tr') else fired fn tr'
  | _ :: tr' => fired fn tr'
  end.

(** [Close] invoked [n] times in a row. *)
Fixpoint Closes (n : nat) : M unit :=
  match n with
  | O => ret tt
  | S n' => Close ;;; Closes n'
  end.

(** A session: the socket is created at time [now32], then it receives
    transports, handler registrations, PING packets whose answer runs at
    a given time, and [Close] invocations. *)
Inductive operation : Type :=
| Attach (t : Transport)
| RegisterClose (fn : handler)
| InboundPing (data : bytes) (now32 : N)
| InvokeClose.

Definition perform (o : operation) : M unit :=
  match o with
  | Attach t => setTransport t ;;; ret tt
  | RegisterClose fn => OnClose (Some fn)
  | InboundPing data now32 =>
    accept (NewPacketCustom PING data NoOption) ;;;
    schedule now32
  | InvokeClose => Close
  end.

Definition sessionFrom (w : world) (ops : list operation) : go unit * world :=
  for_each ops perform w.

(** The session is CLOSED once [Close] has been invoked on it. *)
Definition closed (ops : list operation) : bool :=
  existsb (fun o => match o with InvokeClose => true | _ => false end) ops.

(** ** Callers of the socket

    Everything the engine, a transport or the application can do to a
    socket once it exists: call one of its methods, or let the oldest
    goroutine run, the clock reading [now32] at that moment. *)
Inductive call : Type :=
| CallOnClose (fn : option handler)
| CallOnMessage (fn : option handler)
| CallOnError (fn : option handler)
| CallOnUpgrade (fn : option handler)
| CallSend (m : message)
| CallClose
| CallSetTransport (t : Transport)
| CallAccept (packet : Packet)
| RunGoroutine (now32 : N).

Definition invoke (c : call) : M unit :=
  match c with
  | CallOnClose fn => OnClose fn
  | CallOnMessage fn => OnMessage fn
  | CallOnError fn => OnError fn
  | CallOnUpgrade fn => OnUpgrade fn
  | CallSend m => Send m ;;; ret tt
  | CallClose => Close
  | CallSetTransport t => setTransport t ;;; ret tt
  | CallAccept packet => accept packet ;;; ret tt
  | RunGoroutine now32 => schedule now32
  end.

(** A sequence of calls; a panic ends it. *)
Definition run (cs : list call) : M unit := for_each cs invoke.

End Socket.

Definition newSocket (id : string) (now32 : N) : socketImpl :=
  mkSocket id now32 [] [] [] [] None None.

Definition newWorld (p : socketImpl) : world := mkWorld p [] [].

(** [Transport()]: the transport in use, the primary one when there is
    one. *)
Definition socketImpl_Transport (p : socketImpl) : option Transport :=
  match transportPrimary p with
  | Some t => Some t
  | None => transportBackup p
  end.

Definition ID (p : socketImpl) : string := id p.

(** Arithmetic of [uint32]: the result modulo [2^32]. *)
Definition uint32 (z : Z) : N := Z.to_N (z mod 2 ^ 32).

(** [isLost]: [now32] is the value of the clock and [pingTimeout] the
    option of the engine, both [uint32]; the subtraction and the
    multiplication wrap around. *)
Definition isLost (now32 pingTimeout : N) (p : socketImpl) : bool :=
  let d := uint32 (1000 * Z.of_N (uint32 (Z.of_N now32 - Z.of_N (heartbeat p)))) in
  (pingTimeout <? d)%N.

Definition session (write_result : list event -> Transport -> Packet -> option error)
           (close_result : list event -> Transport -> option error)
           (id : string) (now32 : N) (ops : list operation) : go unit * world :=
  sessionFrom write_result close_result (newWorld (newSocket id now32)) ops.

End eio.

(* ================================================================== *)
(** * Concrete sessions used below *)

Module scenario.
Import parser eio.

(** Transports that never fail. *)
Definition write_ok (_ : list event) (_ : Transport) (_ : Packet) : option error := None.
Definition close_ok (_ : list event) (_ : Transport) : option error := None.

(** Transports whose [close] fails. *)
Definition close_fails (_ : list event) (_ : Transport) : option error :=
  Some "use of closed network connection"%string.

Definition polling : Transport := 1%nat.
Definition websocket : Transport := 2%nat.
Definition onClose : handler := 7%nat.
Definition onUpgrade : handler := 8%nat.

(** A socket created at time 1000, its polling transport attached and a
    close handler registered. *)
Definition opened : world :=
  snd (session write_ok close_ok "abc" 1000 [Attach polling; RegisterClose onClose]).

(** The same socket with its heartbeat-tick at zero. *)
Definition zeroed : world :=
  mkWorld (set_heartbeat 0 (sock opened)) (trace opened) (spawned opened).

(** The socket in the upgrade window: the websocket transport attached
    as primary and an upgrade handler registered. *)
Definition upgrading : world :=
  snd ((setTransport websocket ;;; OnUpgrade (Some onUpgrade)) opened).

Definition hello : message := Text (str "hello").
Definition probe : bytes := str "probe".

(** The UTF-8 encoding of U+1F600. *)
Definition smiley : bytes := ["240"%byte; "159"%byte; "152"%byte; "128"%byte].

(** A batch of three packets: a text message, a binary message and a
    ping whose payload is U+1F600. *)
Definition batch : list Packet :=
  [NewPacket MESSAGE hello; NewPacket MESSAGE (Bytes (str "hello"));
   NewPacketCustom PING smiley NoOption].

(** The batch as it goes over the wire. *)
Definition wire : bytes := str "6:4hello10:b4aGVsbG8=2:2" ++ smiley.

(** The socket in the upgrade window with its heartbeat-tick at zero. *)
Definition upgradingZeroed : world :=
  mkWorld (set_heartbeat 0 (sock upgrading)) (trace upgrading) (spawned upgrading).

(** What happens to the opened socket: a PING answered at time 2000,
    then [Close]. *)
Definition life : list operation :=
  [Attach polling; RegisterClose onClose; InboundPing probe 2000; InvokeClose].

(** The PING [2probe] arrives on the opened socket and its answer runs
    at time 2000. *)
Definition pinged : go unit * world :=
  (accept close_ok (NewPacketCustom PING probe NoOption) ;;;
   schedule write_ok 2000) opened.

End scenario.

(* ================================================================== *)
(** * Properties of the socket *)

Section SocketFacts.
Import parser eio.

Variable write_result : list event -> Transport -> Packet -> option error.
Variable close_result : list event -> Transport -> option error.

Lemma world_eta (w : world) : mkWorld (sock w) (trace w) (spawned w) = w.
Proof. destruct w; reflexivity. Qed.

Lemma socket_eta (p : socketImpl) :
  mkSocket (id p) (heartbeat p) (msgHandlers p) (upgradeHandlers p)
           (errorHandlers p) (closeHandlers p) (transportBackup p)
           (transportPrimary p) = p.
Proof. destruct p; reflexivity. Qed.

(** Firing a list of handlers appends one event per handler, in order. *)
Lemma for_each_emit (f : handler -> event) (l : list handler) (w : world) :
  for_each l (fun fn => emit (f fn)) w
  = (Done tt, mkWorld (sock w) (trace w ++ map f l) (spawned w)).
Proof.
  revert w; induction l as [|h l IH]; intro w; simpl.
  - unfold ret. now rewrite app_nil_r, world_eta.
  - unfold bind at 1, emit at 1. rewrite IH; simpl.
    now rewrite <- app_assoc.
Qed.

Lemma isHeartbeat_false (p : socketImpl) :
  heartbeat p <> 0%N -> isHeartbeat p = false.
Proof. intro H. unfold isHeartbeat. now apply N.eqb_neq. Qed.

Lemma isHeartbeat_true (p : socketImpl) :
  heartbeat p = 0%N -> isHeartbeat p = true.
Proof. intro H. unfold isHeartbeat. now apply N.eqb_eq. Qed.

(** On a socket whose heartbeat-tick is not zero [Close] returns at once
    and changes nothing. *)
Lemma Close_open_noop (w : world) :
  heartbeat (sock w) <> 0%N -> Close close_result w = (Done tt, w).
Proof.
  intro H. unfold eio.Close, bind, this.
  now rewrite (isHeartbeat_false _ H).
Qed.

(** On a socket whose heartbeat-tick is not zero [Send] refuses. *)
Lemma Send_open_refused (m : message) (w : world) :
  heartbeat (sock w) <> 0%N ->
  Send write_result m w = (Done (Some ("socket#" ++ id (sock w) ++ " is closed")%string), w).
Proof.
  intro H. unfold eio.Send, bind, this.
  now rewrite (isHeartbeat_false _ H).
Qed.

Lemma Closes_open_noop (n : nat) (w : world) :
  heartbeat (sock w) <> 0%N -> Closes close_result n w = (Done tt, w).
Proof.
  intro H. induction n as [|n IH]; simpl; [reflexivity|].
  unfold bind. now rewrite (Close_open_noop w H).
Qed.

Lemma pingReply_heartbeat (now32 : N) (packet : Packet) (w : world) :
  heartbeat (sock w) <> 0%N ->
  heartbeat (sock (snd (pingReply write_result now32 packet w))) = heartbeat (sock w).
Proof.
  intro H. unfold pingReply, bind, this, getTransport.
  rewrite (isHeartbeat_false _ H). unfold ret, bind, this; simpl.
  destruct (transportPrimary (sock w)); [reflexivity|].
  destruct (transportBackup (sock w)); reflexivity.
Qed.

Lemma perform_heartbeat (o : operation) (w : world) :
  heartbeat (sock w) <> 0%N ->
  heartbeat (sock (snd (perform write_result close_result o w))) = heartbeat (sock w).
Proof.
  intro H. destruct o as [t|fn|data now32|]; simpl.
  - unfold bind, setTransport, this, bind; simpl.
    destruct (transportPrimary (sock w)); [reflexivity|].
    destruct (transportBackup (sock w)); reflexivity.
  - reflexivity.
  - unfold perform, accept; simpl. unfold bind, spawn, ret, schedule; simpl.
    destruct (spawned w) as [|[pk] rest]; simpl.
    + now rewrite pingReply_heartbeat.
    + now rewrite pingReply_heartbeat.
  - now rewrite Close_open_noop.
Qed.

Lemma sessionFrom_heartbeat (ops : list operation) (w : world) :
  heartbeat (sock w) <> 0%N ->
  heartbeat (sock (snd (sessionFrom write_result close_result w ops))) = heartbeat (sock w).
Proof.
  unfold sessionFrom.
  revert w; induction ops as [|o ops IH]; intros w H; simpl; [reflexivity|].
  unfold bind. pose proof (perform_heartbeat o w H) as E.
  destruct (perform write_result close_result o w) as [[[]|msg] w']; simpl in *.
  - rewrite IH; congruence.
  - exact E.
Qed.

(** Firing close handlers [l] adds to the count of [fn] its number of
    occurrences in [l]. *)
Lemma fired_app (fn : handler) (tr1 tr2 : list event) :
  fired fn (tr1 ++ tr2) = fired fn tr1 + fired fn tr2.
Proof.
  induction tr1 as [|e tr1 IH]; simpl; [reflexivity|].
  destruct e; try exact IH. destruct (Nat.eqb fn fn0); simpl; now rewrite IH.
Qed.

Lemma fired_handlers (fn : handler) (reason : string) (l : list handler) :
  fired fn (map (fun h => CloseHandler h reason) l) = count_occ Nat.eq_dec l fn.
Proof.
  induction l as [|h l IH]; simpl; [reflexivity|].
  destruct (Nat.eq_dec h fn) as [E|E].
  - subst. now rewrite Nat.eqb_refl, IH.
  - destruct (Nat.eqb_spec fn h); [congruence|exact IH].
Qed.

(** What [Close] does on a socket whose heartbeat-tick is zero: the whole
    transition runs, every time. *)
Lemma Close_zero_runs (w : world) :
  heartbeat (sock w) = 0%N ->
  exists evs reason,
    Close close_result w
    = (Done tt,
       mkWorld (set_heartbeat 0 (sock w))
               ((trace w ++ evs)
                  ++ map (fun h => CloseHandler h reason) (closeHandlers (sock w)))
               (spawned w))
    /\ forall fn, fired fn evs = 0.
Proof.
  intro H. unfold eio.Close, bind at 1, this.
  rewrite (isHeartbeat_true _ H).
  cbv beta iota zeta delta [negb].
  unfold bind at 1, update at 1.
  destruct (transportPrimary (sock w)) as [tp|];
    destruct (transportBackup (sock w)) as [tb|];
    unfold bind, close, ret; simpl; rewrite for_each_emit; simpl.
  - exists [TransportClose tp; TransportClose tb]. eexists. split; [|reflexivity].
    now rewrite <- !app_assoc.
  - exists [TransportClose tp]. eexists. split; reflexivity.
  - exists [TransportClose tb]. eexists. split; reflexivity.
  - exists []. eexists. split; [|reflexivity]. now rewrite app_nil_r.
Qed.

Lemma Close_zero_fires (w : world) (fn : handler) :
  heartbeat (sock w) = 0%N ->
  fst (Close close_result w) = Done tt /\
  heartbeat (sock (snd (Close close_result w))) = 0%N /\
  closeHandlers (sock (snd (Close close_result w))) = closeHandlers (sock w) /\
  fired fn (trace (snd (Close close_result w)))
  = fired fn (trace w) + count_occ Nat.eq_dec (closeHandlers (sock w)) fn.
Proof.
  intro H. destruct (Close_zero_runs w H) as (evs & reason & E & Hevs).
  rewrite E; simpl. repeat split.
  now rewrite !fired_app, fired_handlers, Hevs, Nat.add_0_r.
Qed.

Lemma Closes_zero_fires (n : nat) (w : world) (fn : handler) :
  heartbeat (sock w) = 0%N ->
  fired fn (trace (snd (Closes close_result n w)))
  = fired fn (trace w) + n * count_occ Nat.eq_dec (closeHandlers (sock w)) fn.
Proof.
  revert w; induction n as [|n IH]; intros w H; simpl; [lia|].
  unfold bind. destruct (Close_zero_fires w fn H) as (E1 & E2 & E3 & E4).
  destruct (Close close_result w) as [r w']; simpl in *. subst r.
  rewrite IH, E4, E3 by exact E2. lia.
Qed.

(** ** Claims about the socket *)

(** C3.  The heartbeat-tick of a socket created at a time other than zero
    never changes, whatever the session does: an inbound PING does not
    refresh it and [Close] does not reset it.  It is monotone for that
    reason alone, and it is still not zero once the session is CLOSED. *)
Theorem heartbeat_never_changes (id : string) (now32 : N) (ops : list operation) :
  now32 <> 0%N ->
  heartbeat (sock (snd (session write_result close_result id now32 ops))) = now32
  /\ (closed ops = true ->
      heartbeat (sock (snd (session write_result close_result id now32 ops))) <> 0%N).
Proof.
  intro H. unfold session.
  assert (E : heartbeat (sock (snd (sessionFrom write_result close_result
                                    (newWorld (newSocket id now32)) ops))) = now32)
    by (now rewrite sessionFrom_heartbeat).
  split; [exact E|]. intros _. now rewrite E.
Qed.


(** The answer to a PING on a socket whose heartbeat-tick is not zero:
    the PONG carries the payload of the PING and goes to the primary
    transport, or to the backup one when there is no primary; the
    heartbeat-tick is left as it was. *)
Lemma ping_on_open_socket (data : bytes) (now32 : N) (w : world) (t : Transport) :
  heartbeat (sock w) <> 0%N ->
  spawned w = [] ->
  getTransport w = (Done t, w) ->
  (accept close_result (NewPacketCustom PING data NoOption) ;;;
   schedule write_result now32) w
  = (Done tt,
     mkWorld (sock w)
             (trace w ++ [TransportWrite t (NewPacketCustom PONG data NoOption)])
             []).
Proof.
  intros H Hs Ht. unfold accept; simpl.
  unfold bind at 1. unfold bind at 1, spawn, ret, schedule; simpl.
  rewrite Hs; simpl.
  unfold pingReply, bind at 1, this; simpl.
  rewrite (isHeartbeat_false _ H). unfold bind at 1, ret at 1.
  unfold getTransport, bind, this, ret, panic, write in *; simpl in *.
  destruct (transportPrimary (sock w)) as [tp|].
  - inversion Ht; subst. reflexivity.
  - destruct (transportBackup (sock w)) as [tb|]; [|discriminate].
    inversion Ht; subst. reflexivity.
Qed.

(** C9 as amended.  In the upgrade window an inbound UPGRADE packet makes
    the socket call [upgradeEnd] on the backup transport with the primary
    as argument, clear the backup and close it.  When that close reports
    no error every registered upgrade callback fires, in order of
    registration, and [accept] returns no error; when it reports an
    error [accept] returns that error and no upgrade callback fires. *)
Theorem accept_upgrade (packet : Packet) (w : world) (tPrimary tBackup : Transport) :
  Type_ packet = UPGRADE ->
  transportPrimary (sock w) = Some tPrimary ->
  transportBackup (sock w) = Some tBackup ->
  let tr := trace w ++ [TransportUpgradeEnd tBackup tPrimary] in
  accept close_result packet w
  = match close_result tr tBackup with
    | None =>
      (Done None,
       mkWorld (set_transportBackup None (sock w))
               ((tr ++ [TransportClose tBackup])
                  ++ map UpgradeHandler (upgradeHandlers (sock w)))
               (spawned w))
    | Some e =>
      (Done (Some e),
       mkWorld (set_transportBackup None (sock w))
               (tr ++ [TransportClose tBackup])
               (spawned w))
    end.
Proof.
  intros Ht Hp Hb. unfold accept. rewrite Ht.
  unfold bind at 1, this. rewrite Hp, Hb.
  unfold bind at 1, upgradeEnd. unfold emit at 1.
  unfold bind at 1, update.
  unfold bind at 1, close; simpl.
  destruct (close_result (trace w ++ [TransportUpgradeEnd tBackup tPrimary]) tBackup) as [e|].
  - reflexivity.
  - unfold bind, ret. rewrite for_each_emit. reflexivity.
Qed.

End SocketFacts.

(** C1.  [Send] on the socket created at time 1000, its transport attached,
    is refused with the error that the socket is closed, and nothing is
    written; on the same socket with a heartbeat-tick of zero the message is
    written to the transport and no error is returned. *)
Theorem Send_refused_while_open :
  eio.Send scenario.write_ok scenario.hello scenario.opened
  = (Done (Some "socket#abc is closed"%string), scenario.opened)
  /\ eio.heartbeat (eio.sock scenario.opened) = 1000%N
  /\ eio.heartbeat (eio.sock scenario.zeroed) = 0%N
  /\ eio.Send scenario.write_ok scenario.hello scenario.zeroed
     = (Done None,
        eio.mkWorld (eio.sock scenario.zeroed)
                    [eio.TransportWrite scenario.polling
                       (parser.NewPacket parser.MESSAGE scenario.hello)]
                    []).
Proof. repeat split. Qed.

(** C2.  On the socket created at time 1000 no number of [Close]
    invocations fires the registered close handler, and the socket is left
    as it was; on the same socket with a heartbeat-tick of zero every
    [Close] runs the whole transition again, so that [n] invocations fire
    the handler [n] times. *)
Theorem Close_fires_handlers_never_or_every_time (n : nat) :
  eio.Closes scenario.close_ok n scenario.opened = (Done tt, scenario.opened)
  /\ eio.fired scenario.onClose
       (eio.trace (snd (eio.Closes scenario.close_ok n scenario.opened))) = 0
  /\ eio.fired scenario.onClose
       (eio.trace (snd (eio.Closes scenario.close_ok n scenario.zeroed))) = n.
Proof.
  assert (E : eio.Closes scenario.close_ok n scenario.opened = (Done tt, scenario.opened))
    by (apply Closes_open_noop; discriminate).
  split; [exact E|]. split.
  - rewrite E. reflexivity.
  - rewrite Closes_zero_fires by reflexivity. simpl. lia.
Qed.

(** C8.  A PING with payload [probe] arrives on the socket created at time
    1000 and its answer runs at time 2000: the PONG written to the
    transport carries [probe], and the heartbeat-tick is still 1000. *)
Theorem ping_does_not_refresh_heartbeat :
  let w' := snd scenario.pinged in
  fst scenario.pinged = Done tt
  /\ eio.trace w'
  = [eio.TransportWrite scenario.polling
       (parser.NewPacketCustom parser.PONG scenario.probe parser.NoOption)]
  /\ eio.heartbeat (eio.sock scenario.opened) = 1000%N
  /\ eio.heartbeat (eio.sock w') = 1000%N.
Proof. repeat split. Qed.

(** C9 as stated fails: when closing the backup transport reports an error,
    [accept] returns it and the registered upgrade callback has not
    fired. *)
Lemma upgrade_callbacks_skipped_when_close_fails :
  let packet := parser.NewPacketCustom parser.UPGRADE [] parser.NoOption in
  let r := eio.accept scenario.close_fails packet scenario.upgrading in
  eio.transportPrimary (eio.sock scenario.upgrading) = Some scenario.websocket
  /\ eio.transportBackup (eio.sock scenario.upgrading) = Some scenario.polling
  /\ eio.upgradeHandlers (eio.sock scenario.upgrading) = [scenario.onUpgrade]
  /\ fst r = Done (Some "use of closed network connection"%string)
  /\ eio.trace (snd r)
     = [eio.TransportUpgradeEnd scenario.polling scenario.websocket;
        eio.TransportClose scenario.polling]
  /\ ~ In (eio.UpgradeHandler scenario.onUpgrade) (eio.trace (snd r)).
Proof.
  repeat split. simpl. intros [H|[H|[]]]; discriminate.
Qed.

(* ================================================================== *)
(** * Bytes *)

Section ByteFacts.
Local Open Scope N_scope.

Lemma b2n_lt (b : byte) : b2n b < 256.
Proof. unfold b2n. pose proof (Byte.to_N_bounded b). lia. Qed.

Lemma b2n_n2b (n : N) : n < 256 -> b2n (n2b n) = n.
Proof.
  intro H. unfold n2b, b2n. rewrite N.mod_small by exact H.
  destruct (Byte.of_N n) as [b|] eqn:E.
  - now apply Byte.to_of_N.
  - apply Byte.of_N_None_iff in E. lia.
Qed.

Lemma n2b_b2n (b : byte) : n2b (b2n b) = b.
Proof.
  unfold n2b, b2n. rewrite N.mod_small by apply b2n_lt.
  now rewrite Byte.of_to_N.
Qed.

Lemma b2n_inj (a b : byte) : b2n a = b2n b -> a = b.
Proof. intro H. rewrite <- (n2b_b2n a), <- (n2b_b2n b). now rewrite H. Qed.

End ByteFacts.

(* ================================================================== *)
(** * Properties of the UTF-8 decoder *)

Section Utf8Facts.
Import utf8.
Local Open Scope N_scope.

(** The nine values of the table [first]. *)
Lemma first_cases (b : N) :
  first b = as_ \/ first b = xx \/ first b = s1 \/ first b = s2 \/ first b = s3
  \/ first b = s4 \/ first b = s5 \/ first b = s6 \/ first b = s7.
Proof.
  unfold first.
  repeat match goal with
         | |- context [if ?c then _ else _] => destruct c
         end; tauto.
Qed.

Lemma first_ascii (b : N) : b < 0x80 -> first b = as_.
Proof. intro H. unfold first. now apply N.ltb_lt in H as ->. Qed.

Ltac first_case c :=
  destruct (first_cases (b2n c)) as [E|[E|[E|[E|[E|[E|[E|[E|E]]]]]]]];
  rewrite E; cbn -[N.of_nat List.length outside N.lor N.land N.shiftl];
  repeat match goal with
         | |- context [N.land ?a 7] =>
           let v := eval vm_compute in (N.land a 7) in change (N.land a 7) with v
         end.

Ltac split_ifs :=
  repeat match goal with
         | |- context [if ?c then _ else _] => destruct c eqn:?
         end.

(** A rune is at least one byte wide and never wider than the input. *)
Lemma width_bounds (p : bytes) :
  p <> [] -> (1 <= width p <= List.length p)%nat.
Proof.
  intro Hp. unfold width, DecodeRune.
  destruct p as [|c0 [|c1 [|c2 [|c3 t]]]]; [congruence| | | |];
    first_case c0; split_ifs; simpl; lia.
Qed.

Ltac bools :=
  unfold outside, locb, hicb in *;
  repeat match goal with
         | H : (_ || _)%bool = true |- _ => apply orb_true_iff in H; destruct H
         | H : (_ || _)%bool = false |- _ => apply orb_false_iff in H; destruct H
         | H : (_ <? _) = true |- _ => apply N.ltb_lt in H
         | H : (_ <? _) = false |- _ => apply N.ltb_ge in H
         | H : (_ <=? _) = true |- _ => apply N.leb_le in H
         | H : (_ <=? _) = false |- _ => apply N.leb_gt in H
         | H : (_ =? _) = true |- _ => apply N.eqb_eq in H
         | H : (_ =? _) = false |- _ => apply N.eqb_neq in H
         end.

(** What follows a rune does not change how it decodes, provided the
    rune is well formed or what follows does not start with a
    continuation byte. *)
Lemma DecodeRune_app (p rest : bytes) :
  p <> [] ->
  DecodeRune p <> (RuneError, 1%nat)
  \/ (forall c rest', rest = c :: rest' -> outside locb hicb (b2n c) = true) ->
  DecodeRune (p ++ rest) = DecodeRune p.
Proof.
  intros Hp H. destruct rest as [|r0 rest]; [now rewrite app_nil_r|].
  assert (Hr : DecodeRune p <> (RuneError, 1%nat) \/ outside locb hicb (b2n r0) = true)
    by (destruct H as [H|H]; [now left|right; now apply (H r0 rest)]).
  clear H. revert Hr. unfold DecodeRune.
  destruct rest as [|r1 [|r2 rest]];
  (destruct p as [|c0 [|c1 [|c2 [|c3 t]]]]; [congruence| | | |]);
    simpl app; first_case c0; split_ifs; intros [H|H];
      try reflexivity; try congruence;
        simpl List.length in *; bools; try lia.
Qed.

(** A rune decodes the same from every prefix of the input that holds
    it whole. *)
Lemma DecodeRune_firstn (p : bytes) (k : nat) :
  (width p <= k)%nat -> DecodeRune (firstn k p) = DecodeRune p.
Proof.
  unfold width, DecodeRune.
  destruct p as [|c0 [|c1 [|c2 [|c3 t]]]]; [now rewrite firstn_nil| | | |];
    destruct k as [|[|[|[|k]]]]; simpl firstn;
      first_case c0; split_ifs; simpl; intro H;
        try reflexivity; try congruence; try lia;
          simpl List.length in *; bools; try lia.
Qed.

Lemma skip_rune_shorter (p : bytes) :
  p <> [] -> (List.length (skipn (width p) p) < List.length p)%nat.
Proof.
  intro Hp. pose proof (width_bounds p Hp). rewrite length_skipn. lia.
Qed.

(** Induction over a byte sequence rune by rune. *)
Lemma rune_ind (P : bytes -> Prop) :
  P [] ->
  (forall p, p <> [] -> P (skipn (width p) p) -> P p) ->
  forall p, P p.
Proof.
  intros Hnil Hstep p.
  remember (List.length p) as n eqn:En. revert p En.
  induction n as [n IH] using lt_wf_ind. intros p En.
  destruct p as [|c t]; [exact Hnil|].
  apply Hstep; [discriminate|].
  apply (IH (List.length (skipn (width (c :: t)) (c :: t)))); [|reflexivity].
  subst n. apply skip_rune_shorter. discriminate.
Qed.

Lemma RuneCount_loop_acc (fuel : nat) (p : bytes) (n : Z) :
  RuneCount_loop fuel p n = (n + RuneCount_loop fuel p 0)%Z.
Proof.
  revert p n. induction fuel as [|fuel IH]; intros p n; simpl; [lia|].
  destruct p as [|c t]; [lia|].
  rewrite (IH _ (n + 1)%Z), (IH _ (0 + 1)%Z). lia.
Qed.

Lemma RuneCount_loop_fuel (fuel1 fuel2 : nat) (p : bytes) (n : Z) :
  (List.length p <= fuel1)%nat -> (List.length p <= fuel2)%nat ->
  RuneCount_loop fuel1 p n = RuneCount_loop fuel2 p n.
Proof.
  revert fuel2 p n. induction fuel1 as [|fuel1 IH]; intros fuel2 p n H1 H2.
  - destruct p; [|simpl in H1; lia]. destruct fuel2; reflexivity.
  - destruct p as [|c t]; [destruct fuel2; reflexivity|].
    destruct fuel2 as [|fuel2]; [simpl in H2; lia|].
    cbn [RuneCount_loop].
    pose proof (skip_rune_shorter (c :: t) ltac:(discriminate)) as Hs.
    simpl List.length in *. apply IH; lia.
Qed.

Lemma RuneCount_nil : RuneCount [] = 0%Z.
Proof. reflexivity. Qed.

(** Counting the runes of a sequence that is not empty: one, plus those
    after the first rune. *)
Lemma RuneCount_step (p : bytes) :
  p <> [] -> RuneCount p = (1 + RuneCount (skipn (width p) p))%Z.
Proof.
  intro Hp. destruct p as [|c t]; [congruence|].
  unfold RuneCount at 1. simpl List.length. cbn [RuneCount_loop].
  rewrite RuneCount_loop_acc. unfold RuneCount.
  pose proof (skip_rune_shorter (c :: t) Hp) as Hs. simpl List.length in Hs.
  rewrite (RuneCount_loop_fuel (List.length t) (List.length (skipn (width (c :: t)) (c :: t))));
    [lia|lia|lia].
Qed.

Lemma RuneCount_bounds (p : bytes) :
  (0 <= RuneCount p <= Z.of_nat (List.length p))%Z
  /\ (p <> [] -> 1 <= RuneCount p)%Z.
Proof.
  induction p as [|p Hp IH] using rune_ind.
  - rewrite RuneCount_nil. simpl. split; [lia|congruence].
  - rewrite (RuneCount_step p Hp).
    pose proof (skip_rune_shorter p Hp). split; [|intros _]; lia.
Qed.

Lemma Valid_loop_fuel (fuel1 fuel2 : nat) (p : bytes) :
  (List.length p <= fuel1)%nat -> (List.length p <= fuel2)%nat ->
  Valid_loop fuel1 p = Valid_loop fuel2 p.
Proof.
  revert fuel2 p. induction fuel1 as [|fuel1 IH]; intros fuel2 p H1 H2.
  - destruct p; [|simpl in H1; lia]. destruct fuel2; reflexivity.
  - destruct p as [|c t]; [destruct fuel2; reflexivity|].
    destruct fuel2 as [|fuel2]; [simpl in H2; lia|].
    cbn [Valid_loop].
    pose proof (skip_rune_shorter (c :: t) ltac:(discriminate)) as Hs.
    unfold width in Hs.
    destruct (DecodeRune (c :: t)) as [r w]; simpl in Hs.
    destruct ((r =? RuneError) && (w =? 1)%nat); [reflexivity|].
    simpl List.length in *. apply IH; lia.
Qed.

(** A valid sequence that is not empty starts with a well-formed rune
    and is valid after it. *)
Lemma Valid_step (p : bytes) :
  p <> [] -> Valid p = true ->
  DecodeRune p <> (RuneError, 1%nat) /\ Valid (skipn (width p) p) = true.
Proof.
  intros Hp. destruct p as [|c t]; [congruence|].
  unfold Valid at 1. simpl List.length. cbn [Valid_loop].
  pose proof (skip_rune_shorter (c :: t) Hp) as Hs. unfold width in *.
  destruct (DecodeRune (c :: t)) as [r w] eqn:E; simpl in *.
  destruct ((r =? RuneError) && (w =? 1)%nat) eqn:B; [discriminate|].
  intro V. split.
  - intro X. inversion X; subst. discriminate.
  - unfold Valid. rewrite <- V. apply Valid_loop_fuel; lia.
Qed.

(** ** ASCII *)

Lemma DecodeRune_ascii (c : byte) (t : bytes) :
  b2n c < RuneSelf -> DecodeRune (c :: t) = (b2n c, 1%nat).
Proof.
  intro H. unfold DecodeRune. rewrite (first_ascii _ H). reflexivity.
Qed.

Lemma RuneCount_cons_ascii (c : byte) (t : bytes) :
  b2n c < RuneSelf -> RuneCount (c :: t) = (1 + RuneCount t)%Z.
Proof.
  intro H. rewrite RuneCount_step by discriminate.
  unfold width. now rewrite (DecodeRune_ascii c t H).
Qed.

Lemma Valid_cons_ascii (c : byte) (t : bytes) :
  b2n c < RuneSelf -> Valid (c :: t) = Valid t.
Proof.
  intro H. unfold Valid at 1. simpl List.length. cbn [Valid_loop].
  rewrite (DecodeRune_ascii c t H).
  replace (b2n c =? RuneError) with false
    by (symmetry; apply N.eqb_neq; unfold RuneSelf, RuneError in *; lia).
  reflexivity.
Qed.

Lemma RuneCount_ascii (p : bytes) :
  Forall isASCII p -> RuneCount p = Z.of_nat (List.length p).
Proof.
  induction 1 as [|c t Hc Ht IH]; [reflexivity|].
  rewrite (RuneCount_cons_ascii c t Hc), IH. simpl List.length. lia.
Qed.

Lemma Valid_ascii (p : bytes) : Forall isASCII p -> Valid p = true.
Proof.
  induction 1 as [|c t Hc Ht IH]; [reflexivity|].
  now rewrite (Valid_cons_ascii c t Hc).
Qed.

(** ** The encoder *)

Ltac div_lia := zify; Z.to_euclidean_division_equations; lia.

(** Or-ing a number below [2^k] into a multiple of [2^k] adds it. *)
Lemma lor_add (a b k : N) :
  b < 2 ^ k -> a mod 2 ^ k = 0 -> N.lor a b = a + b.
Proof.
  intros Hb Ha.
  assert (Z0 : N.land a b = 0).
  { apply N.bits_inj. intro n. rewrite N.land_spec, N.bits_0.
    destruct (N.lt_ge_cases n k) as [L|L].
    - rewrite <- (N.mod_pow2_bits_low a k n L), Ha, N.bits_0. reflexivity.
    - rewrite <- (N.mod_small b (2 ^ k) Hb), (N.mod_pow2_bits_high b k n L).
      apply andb_false_r. }
  now rewrite (N.add_nocarry_lxor a b Z0), (N.lxor_lor a b Z0).
Qed.

Ltac resolve_ifs :=
  repeat match goal with
         | |- context [if ?c then _ else _] => destruct c eqn:?
         end; bools.

Ltac accept_ranges :=
  repeat match goal with
         | |- context [acceptRanges ?a] =>
           let v := eval vm_compute in (acceptRanges a) in
           change (acceptRanges a) with v
         end;
  cbn [fst snd].

Ltac to_arith :=
  change maskx with (N.ones 6); change mask2 with (N.ones 5);
  change mask3 with (N.ones 4); change mask4 with (N.ones 3);
  rewrite ?N.shiftr_div_pow2, ?N.shiftl_mul_pow2, ?N.land_ones;
  change (2 ^ 3) with 8; change (2 ^ 4) with 16; change (2 ^ 5) with 32;
  change (2 ^ 6) with 64; change (2 ^ 12) with 4096; change (2 ^ 18) with 262144.

Lemma lead_byte (c r k : N) :
  r < 2 ^ k -> c mod 2 ^ k = 0 -> c + r < 256 ->
  b2n (n2b (N.lor c r)) = c + r.
Proof. intros H1 H2 H3. rewrite (lor_add c r k H1 H2). now apply b2n_n2b. Qed.

(** A continuation byte holds six bits of the rune. *)
Lemma cont_byte (x : N) :
  b2n (n2b (N.lor 0x80 (N.land x maskx))) = 128 + x mod 64.
Proof.
  to_arith. apply (lead_byte 128 (x mod 64) 7); change (2 ^ 7) with 128;
    [div_lia|reflexivity|div_lia].
Qed.

(** Decoding a sequence of two, three or four bytes that is well
    formed. *)
Lemma DecodeRune_two (c0 c1 : byte) (t : bytes) :
  first (b2n c0) = s1 ->
  outside locb hicb (b2n c1) = false ->
  DecodeRune (c0 :: c1 :: t)
  = (N.lor (N.shiftl (N.land (b2n c0) mask2) 6) (N.land (b2n c1) maskx), 2%nat).
Proof.
  intros F O. unfold DecodeRune. rewrite F.
  cbn -[N.of_nat List.length outside N.lor N.land N.shiftl].
  change (N.land s1 7) with 2. rewrite O.
  resolve_ifs; try reflexivity; cbn [List.length] in *; lia.
Qed.

Lemma DecodeRune_three (c0 c1 c2 : byte) (t : bytes) (x : N) :
  first (b2n c0) = x -> x = s2 \/ x = s3 \/ x = s4 ->
  outside (fst (acceptRanges (N.shiftr x 4))) (snd (acceptRanges (N.shiftr x 4)))
          (b2n c1) = false ->
  outside locb hicb (b2n c2) = false ->
  DecodeRune (c0 :: c1 :: c2 :: t)
  = (N.lor (N.lor (N.shiftl (N.land (b2n c0) mask3) 12)
                  (N.shiftl (N.land (b2n c1) maskx) 6))
           (N.land (b2n c2) maskx), 3%nat).
Proof.
  intros F X O1 O2. unfold DecodeRune. rewrite F.
  destruct X as [-> | [-> | ->]];
    cbn -[N.of_nat List.length outside N.lor N.land N.shiftl] in *;
    repeat match goal with
           | |- context [N.land ?a 7] =>
             let v := eval vm_compute in (N.land a 7) in change (N.land a 7) with v
           end;
    rewrite O1, O2; resolve_ifs; try reflexivity; cbn [List.length] in *; lia.
Qed.

Lemma DecodeRune_four (c0 c1 c2 c3 : byte) (t : bytes) (x : N) :
  first (b2n c0) = x -> x = s5 \/ x = s6 \/ x = s7 ->
  outside (fst (acceptRanges (N.shiftr x 4))) (snd (acceptRanges (N.shiftr x 4)))
          (b2n c1) = false ->
  outside locb hicb (b2n c2) = false ->
  outside locb hicb (b2n c3) = false ->
  DecodeRune (c0 :: c1 :: c2 :: c3 :: t)
  = (N.lor (N.lor (N.lor (N.shiftl (N.land (b2n c0) mask4) 18)
                         (N.shiftl (N.land (b2n c1) maskx) 12))
                  (N.shiftl (N.land (b2n c2) maskx) 6))
           (N.land (b2n c3) maskx), 4%nat).
Proof.
  intros F X O1 O2 O3. unfold DecodeRune. rewrite F.
  destruct X as [-> | [-> | ->]];
    cbn -[N.of_nat List.length outside N.lor N.land N.shiftl] in *;
    repeat match goal with
           | |- context [N.land ?a 7] =>
             let v := eval vm_compute in (N.land a 7) in change (N.land a 7) with v
           end;
    rewrite O1, O2, O3; resolve_ifs; try reflexivity; cbn [List.length] in *; lia.
Qed.

Lemma inside (lo hi c : N) : lo <= c <= hi -> outside lo hi c = false.
Proof.
  intro H. unfold outside. apply orb_false_iff.
  split; apply N.ltb_ge; lia.
Qed.

(** Decoding the encoding of a valid rune, followed by anything, gives
    the rune and the number of bytes of its encoding. *)
Lemma DecodeRune_EncodeRune (r : N) (rest : bytes) :
  ValidRune r = true ->
  DecodeRune (EncodeRune r ++ rest) = (r, List.length (EncodeRune r)).
Proof.
  intro V. unfold EncodeRune. rewrite V.
  assert (Vr : r < 0xD800 \/ 0xDFFF < r <= 0x10FFFF).
  { unfold ValidRune, surrogateMin, surrogateMax, MaxRune in V.
    apply orb_true_iff in V as [V|V]; [left; now apply N.ltb_lt|right].
    apply andb_true_iff in V as [V1 V2].
    apply N.ltb_lt in V1. apply N.leb_le in V2. lia. }
  clear V.
  destruct (N.ltb_spec r 0x80) as [R1|R1];
    [|destruct (N.ltb_spec r 0x800) as [R2|R2];
      [|destruct (N.ltb_spec r 0x10000) as [R3|R3]]];
    cbn [app List.length].
  - rewrite DecodeRune_ascii; rewrite b2n_n2b; unfold RuneSelf; try lia.
    reflexivity.
  - assert (E0 : b2n (n2b (N.lor 0xC0 (N.shiftr r 6))) = 192 + r / 64).
    { to_arith. apply (lead_byte 192 (r / 64) 6); change (2 ^ 6) with 64;
        [div_lia|reflexivity|div_lia]. }
    rewrite DecodeRune_two; rewrite ?E0, ?cont_byte.
    + f_equal. to_arith.
      rewrite (lor_add _ _ 6); change (2 ^ 6) with 64; div_lia.
    + unfold first. resolve_ifs; try reflexivity; div_lia.
    + apply inside. unfold locb, hicb. div_lia.
  - assert (E0 : b2n (n2b (N.lor 0xE0 (N.shiftr r 12))) = 224 + r / 4096).
    { to_arith. apply (lead_byte 224 (r / 4096) 5); change (2 ^ 5) with 32;
        [div_lia|reflexivity|div_lia]. }
    rewrite (DecodeRune_three _ _ _ _ (first (224 + r / 4096)));
      rewrite ?E0, ?cont_byte; try reflexivity.
    + f_equal. to_arith.
      rewrite (lor_add (_ * 4096) _ 12); change (2 ^ 12) with 4096; [|div_lia|div_lia].
      rewrite (lor_add (_ + _) _ 6); change (2 ^ 6) with 64; div_lia.
    + assert (Q : r / 4096 <= 15) by div_lia.
      set (q := r / 4096) in *. clearbody q. clear - Q.
      unfold first. resolve_ifs; try (now auto); lia.
    + apply inside. unfold first. to_arith.
      resolve_ifs; accept_ranges; unfold locb, hicb; div_lia.
    + apply inside. unfold locb, hicb. div_lia.
  - assert (E0 : b2n (n2b (N.lor 0xF0 (N.shiftr r 18))) = 240 + r / 262144).
    { to_arith. apply (lead_byte 240 (r / 262144) 4); change (2 ^ 4) with 16;
        [div_lia|reflexivity|div_lia]. }
    rewrite (DecodeRune_four _ _ _ _ _ (first (240 + r / 262144)));
      rewrite ?E0, ?cont_byte; try reflexivity.
    + f_equal. to_arith.
      rewrite (lor_add (_ * 262144) _ 18); change (2 ^ 18) with 262144; [|div_lia|div_lia].
      rewrite (lor_add (_ + _) _ 12); change (2 ^ 12) with 4096; [|div_lia|div_lia].
      rewrite (lor_add (_ + _) _ 6); change (2 ^ 6) with 64; div_lia.
    + assert (Q : r / 262144 <= 4) by div_lia.
      set (q := r / 262144) in *. clearbody q. clear - Q.
      unfold first. resolve_ifs; try (now auto); lia.
    + apply inside. unfold first. to_arith.
      resolve_ifs; accept_ranges; unfold locb, hicb; div_lia.
    + apply inside. unfold locb, hicb. div_lia.
    + apply inside. unfold locb, hicb. div_lia.
Qed.

Lemma EncodeRune_length (r : N) :
  (1 <= List.length (EncodeRune r) <= 4)%nat
  /\ (List.length (EncodeRune r) = 1%nat -> (if ValidRune r then r else RuneError) < 0x80).
Proof.
  unfold EncodeRune. set (r' := if ValidRune r then r else RuneError).
  destruct (N.ltb_spec r' 0x80); [cbn [List.length]; split; [lia|intros _; exact H]|].
  destruct (r' <? 0x800); [cbn [List.length]; split; [lia|discriminate]|].
  destruct (r' <? 0x10000); cbn [List.length]; (split; [lia|discriminate]).
Qed.

Lemma Valid_unfold (p : bytes) :
  p <> [] ->
  Valid p = if (fst (DecodeRune p) =? RuneError) && (width p =? 1)%nat then false
            else Valid (skipn (width p) p).
Proof.
  intros Hp. destruct p as [|c t]; [congruence|].
  unfold Valid at 1. simpl List.length. cbn [Valid_loop].
  pose proof (skip_rune_shorter (c :: t) Hp) as Hs. unfold width in *.
  destruct (DecodeRune (c :: t)) as [r w] eqn:E; cbn [fst snd] in *.
  destruct ((r =? RuneError) && (w =? 1)%nat); [reflexivity|].
  unfold Valid. simpl List.length in Hs. apply Valid_loop_fuel; lia.
Qed.

(** The UTF-8 text of a sequence of valid code points is valid and has
    as many runes as the sequence has code points. *)
Lemma encode_runes_spec (rs : list N) (rest : bytes) :
  Forall (fun r => ValidRune r = true) rs ->
  RuneCount (encode_runes rs ++ rest) = (Z.of_nat (List.length rs) + RuneCount rest)%Z
  /\ Valid (encode_runes rs ++ rest) = Valid rest.
Proof.
  induction 1 as [|r rs Hr Hrs [IH1 IH2]]; [cbn [encode_runes flat_map app List.length]; split; [lia|reflexivity]|].
  cbn [encode_runes flat_map]. fold (encode_runes rs). rewrite <- app_assoc.
  pose proof (DecodeRune_EncodeRune r (encode_runes rs ++ rest) Hr) as D.
  destruct (EncodeRune_length r) as [L1 L2]. rewrite Hr in L2.
  assert (Ne : EncodeRune r ++ encode_runes rs ++ rest <> [])
    by (destruct (EncodeRune r); [simpl in L1; lia|discriminate]).
  assert (W : width (EncodeRune r ++ encode_runes rs ++ rest) = List.length (EncodeRune r))
    by (unfold width; now rewrite D).
  assert (S : skipn (List.length (EncodeRune r)) (EncodeRune r ++ encode_runes rs ++ rest)
              = encode_runes rs ++ rest)
    by (rewrite skipn_app, skipn_all, Nat.sub_diag; reflexivity).
  split.
  - rewrite (RuneCount_step _ Ne), W, S, IH1. cbn [List.length]. lia.
  - rewrite (Valid_unfold _ Ne), W, S, D, IH2. cbn [fst].
    destruct ((r =? RuneError) && (List.length (EncodeRune r) =? 1)%nat) eqn:B; [|reflexivity].
    apply andb_true_iff in B as [B1 B2].
    apply N.eqb_eq in B1. apply Nat.eqb_eq in B2.
    specialize (L2 B2). subst r. unfold RuneError in L2. lia.
Qed.

End Utf8Facts.

(* ================================================================== *)
(** * Properties of the decimal conversions *)

Section StrconvFacts.
Import strconv.
Local Open Scope N_scope.

(** Let [lia] reason about quotients and remainders. *)
Local Ltac div_lia := zify; Z.to_euclidean_division_equations; lia.

Lemma b2n_digit (d : N) : d < 10 -> b2n (digit d) = 48 + d.
Proof. intro H. unfold digit. apply b2n_n2b. lia. Qed.

Lemma isDigit_digit (d : N) : d < 10 -> isDigit (digit d) = true.
Proof.
  intro H. unfold isDigit. rewrite (b2n_digit d H).
  apply andb_true_iff. split; apply N.leb_le; lia.
Qed.

Lemma parseDigits_app (l1 l2 : bytes) (a : N) :
  parseDigits (l1 ++ l2) a
  = match parseDigits l1 a with
    | Some v => parseDigits l2 v
    | None => None
    end.
Proof.
  revert a. induction l1 as [|c l1 IH]; intro a; simpl; [reflexivity|].
  destruct (isDigit c); [apply IH|reflexivity].
Qed.

(** The digits written are in front of the accumulator, there is at
    least one, and read back they give the number. *)
Lemma digits_spec (fuel : nat) (n : N) (acc : bytes) :
  fuel <> O -> n < 2 ^ N.of_nat fuel ->
  exists pre,
    digits fuel n acc = pre ++ acc /\ pre <> []
    /\ Forall (fun c => isDigit c = true) pre
    /\ parseDigits pre 0 = Some n.
Proof.
  revert n acc. induction fuel as [|fuel IH]; intros n acc Hf Hn; [congruence|].
  cbn [digits].
  assert (Hm : n mod 10 < 10) by (apply N.mod_lt; lia).
  destruct (n / 10 =? 0) eqn:E.
  - apply N.eqb_eq in E.
    assert (n = n mod 10) by div_lia.
    exists [digit (n mod 10)]. repeat split; [discriminate| |].
    + constructor; [now apply isDigit_digit|constructor].
    + cbn [parseDigits]. rewrite (isDigit_digit _ Hm), (b2n_digit _ Hm). f_equal. div_lia.
  - apply N.eqb_neq in E.
    assert (Hd : n / 10 < 2 ^ N.of_nat fuel).
    { rewrite Nat2N.inj_succ, N.pow_succ_r' in Hn.
      apply N.Div0.div_lt_upper_bound. lia. }
    assert (Hf' : fuel <> O).
    { intro Z0. subst fuel. change (2 ^ N.of_nat 0) with 1 in Hd. apply E. now apply N.lt_1_r. }
    destruct (IH (n / 10) (digit (n mod 10) :: acc) Hf' Hd)
      as (pre & E1 & E2 & E3 & E4).
    exists (pre ++ [digit (n mod 10)]). repeat split.
    + rewrite E1, <- app_assoc. reflexivity.
    + destruct pre; discriminate.
    + apply Forall_app. split; [exact E3|].
      constructor; [now apply isDigit_digit|constructor].
    + rewrite parseDigits_app, E4. cbn [parseDigits].
      rewrite (isDigit_digit _ Hm), (b2n_digit _ Hm). f_equal.
      div_lia.
Qed.

Lemma utoa_spec (n : N) :
  exists pre,
    utoa n = pre /\ pre <> []
    /\ Forall (fun c => isDigit c = true) pre
    /\ parseDigits pre 0 = Some n.
Proof.
  unfold utoa.
  destruct (digits_spec (S (N.to_nat (N.log2 n))) n []) as (pre & E1 & E2 & E3 & E4).
  - discriminate.
  - rewrite Nat2N.inj_succ, N2Nat.id.
    destruct (N.eq_dec n 0) as [->|Hn]; [reflexivity|].
    apply N.log2_spec. lia.
  - exists pre. rewrite app_nil_r in E1. now repeat split.
Qed.

(** Reading back what [Itoa] wrote gives the number, for every number
    that is not negative and fits an [int]. *)
Lemma Atoi_Itoa (i : Z) :
  (0 <= i <= maxInt)%Z -> Atoi (Itoa i) = Ok i.
Proof.
  intro Hi. unfold Itoa.
  replace (i <? 0)%Z with false by (symmetry; apply Z.ltb_ge; lia).
  destruct (utoa_spec (Z.to_N i)) as (pre & E1 & E2 & E3 & E4).
  rewrite E1. unfold Atoi.
  destruct pre as [|c t]; [congruence|].
  assert (Hc : isDigit c = true) by (now inversion E3).
  unfold isDigit in Hc. apply andb_true_iff in Hc as [Hc1 Hc2].
  apply N.leb_le in Hc1, Hc2.
  assert (Byte.eqb c "-"%byte = false) as ->.
  { destruct (Byte.eqb c "-"%byte) eqn:B; [|reflexivity].
    apply Byte.byte_dec_bl in B. subst c. vm_compute in Hc1. congruence. }
  assert (Byte.eqb c "+"%byte = false) as ->.
  { destruct (Byte.eqb c "+"%byte) eqn:B; [|reflexivity].
    apply Byte.byte_dec_bl in B. subst c. vm_compute in Hc1. congruence. }
  rewrite E4. rewrite Z2N.id by lia.
  replace ((minInt <=? i)%Z && (i <=? maxInt)%Z)%bool with true; [reflexivity|].
  symmetry. apply andb_true_iff. unfold minInt, maxInt in *.
  split; apply Z.leb_le; lia.
Qed.

Lemma Itoa_digits (i : Z) :
  (0 <= i)%Z -> Itoa i <> [] /\ Forall (fun c => isDigit c = true) (Itoa i).
Proof.
  intro Hi. unfold Itoa.
  replace (i <? 0)%Z with false by (symmetry; apply Z.ltb_ge; lia).
  destruct (utoa_spec (Z.to_N i)) as (pre & E1 & E2 & E3 & E4).
  rewrite E1. now split.
Qed.

End StrconvFacts.

(* ================================================================== *)
(** * Properties of base64 *)

Section Base64Facts.
Import base64.
Local Open Scope N_scope.

Local Ltac div_lia := zify; Z.to_euclidean_division_equations; lia.

Local Ltac bools :=
  repeat match goal with
         | H : (_ && _)%bool = true |- _ => apply andb_true_iff in H; destruct H
         | H : (_ && _)%bool = false |- _ => apply andb_false_iff in H; destruct H
         | H : (_ <? _) = true |- _ => apply N.ltb_lt in H
         | H : (_ <? _) = false |- _ => apply N.ltb_ge in H
         | H : (_ <=? _) = true |- _ => apply N.leb_le in H
         | H : (_ <=? _) = false |- _ => apply N.leb_gt in H
         | H : (_ =? _) = true |- _ => apply N.eqb_eq in H
         | H : (_ =? _) = false |- _ => apply N.eqb_neq in H
         end.

(** The code of every letter of the alphabet. *)
Lemma b2n_encodeStd (i : N) :
  i < 64 ->
  b2n (encodeStd i)
  = if i <? 26 then 65 + i
    else if i <? 52 then 97 + (i - 26)
    else if i <? 62 then 48 + (i - 52)
    else if i =? 62 then 43 else 47.
Proof.
  intro H. unfold encodeStd.
  destruct (i <? 26) eqn:E1; [bools; apply b2n_n2b; lia|].
  destruct (i <? 52) eqn:E2; [bools; apply b2n_n2b; lia|].
  destruct (i <? 62) eqn:E3; [bools; apply b2n_n2b; lia|].
  destruct (i =? 62); reflexivity.
Qed.

Lemma decodeStd_encodeStd (i : N) : i < 64 -> decodeStd (encodeStd i) = Some i.
Proof.
  intro H. unfold decodeStd. rewrite (b2n_encodeStd i H).
  destruct (i <? 26) eqn:E1; [|destruct (i <? 52) eqn:E2;
    [|destruct (i <? 62) eqn:E3; [|destruct (i =? 62) eqn:E4]]];
    repeat match goal with
           | |- context [if ?c then _ else _] => destruct c eqn:?
           end; bools; try (f_equal; lia); try lia.
Qed.

Lemma encodeStd_not_pad (i : N) : i < 64 -> Byte.eqb (encodeStd i) pad = false.
Proof.
  intro H. destruct (Byte.eqb (encodeStd i) pad) eqn:E; [|reflexivity].
  apply Byte.byte_dec_bl in E. pose proof (decodeStd_encodeStd i H) as D.
  rewrite E in D. discriminate.
Qed.

Lemma encodeStd_ascii (i : N) : i < 64 -> utf8.isASCII (encodeStd i).
Proof.
  intro H. unfold utf8.isASCII, utf8.RuneSelf. rewrite (b2n_encodeStd i H).
  repeat match goal with
         | |- context [if ?c then _ else _] => destruct c eqn:?
         end; bools; lia.
Qed.

Lemma list_ind3 {A} (P : list A -> Prop) :
  P [] -> (forall a, P [a]) -> (forall a b, P [a; b]) ->
  (forall a b c t, P t -> P (a :: b :: c :: t)) ->
  forall l, P l.
Proof.
  intros H0 H1 H2 H3. fix F 1.
  intros [|a [|b [|c t]]]; [exact H0|apply H1|apply H2|apply H3; apply F].
Qed.

(** What base64 writes is ASCII. *)
Lemma EncodeToString_ascii (src : bytes) :
  Forall utf8.isASCII (EncodeToString src).
Proof.
  assert (Hp : utf8.isASCII pad) by (vm_compute; reflexivity).
  induction src as [|a|a b|a b c t IH] using list_ind3; cbn [EncodeToString].
  - constructor.
  - pose proof (b2n_lt a).
    repeat constructor; try exact Hp; apply encodeStd_ascii; div_lia.
  - pose proof (b2n_lt a). pose proof (b2n_lt b).
    repeat constructor; try exact Hp; apply encodeStd_ascii; div_lia.
  - pose proof (b2n_lt a). pose proof (b2n_lt b). pose proof (b2n_lt c).
    repeat (constructor; [apply encodeStd_ascii; div_lia|]). exact IH.
Qed.

(** Decoding what base64 wrote gives the bytes back. *)
Lemma DecodeString_EncodeToString (src : bytes) :
  DecodeString (EncodeToString src) = Ok src.
Proof.
  induction src as [|a|a b|a b c t IH] using list_ind3; cbn [EncodeToString].
  - reflexivity.
  - pose proof (b2n_lt a) as Ha. set (v := b2n a * 65536).
    assert (L0 : v / 262144 < 64) by (subst v; div_lia).
    assert (L1 : v / 4096 mod 64 < 64) by (subst v; div_lia).
    cbn [DecodeString].
    rewrite (decodeStd_encodeStd _ L0), (decodeStd_encodeStd _ L1).
    replace (Byte.eqb pad pad) with true by reflexivity.
    do 2 f_equal. rewrite <- (n2b_b2n a). f_equal. subst v. div_lia.
  - pose proof (b2n_lt a) as Ha. pose proof (b2n_lt b) as Hb.
    set (v := b2n a * 65536 + b2n b * 256).
    assert (L0 : v / 262144 < 64) by (subst v; div_lia).
    assert (L1 : v / 4096 mod 64 < 64) by (subst v; div_lia).
    assert (L2 : v / 64 mod 64 < 64) by (subst v; div_lia).
    cbn [DecodeString].
    rewrite (decodeStd_encodeStd _ L0), (decodeStd_encodeStd _ L1).
    replace (Byte.eqb pad pad) with true by reflexivity.
    rewrite (encodeStd_not_pad _ L2), (decodeStd_encodeStd _ L2).
    f_equal. rewrite <- (n2b_b2n a), <- (n2b_b2n b).
    f_equal; [|f_equal]; f_equal; subst v; rewrite ?n2b_b2n; div_lia.
  - pose proof (b2n_lt a) as Ha. pose proof (b2n_lt b) as Hb.
    pose proof (b2n_lt c) as Hc.
    set (v := b2n a * 65536 + b2n b * 256 + b2n c).
    assert (L0 : v / 262144 < 64) by (subst v; div_lia).
    assert (L1 : v / 4096 mod 64 < 64) by (subst v; div_lia).
    assert (L2 : v / 64 mod 64 < 64) by (subst v; div_lia).
    assert (L3 : v mod 64 < 64) by (subst v; div_lia).
    cbn [DecodeString].
    rewrite (decodeStd_encodeStd _ L0), (decodeStd_encodeStd _ L1).
    rewrite (encodeStd_not_pad _ L3).
    rewrite (decodeStd_encodeStd _ L2), (decodeStd_encodeStd _ L3), IH.
    f_equal. rewrite <- (n2b_b2n a), <- (n2b_b2n b), <- (n2b_b2n c).
    f_equal; [|f_equal; [|f_equal]]; f_equal; subst v; rewrite ?n2b_b2n; div_lia.
Qed.

End Base64Facts.

(* ================================================================== *)
(** * Properties of the single-packet encoders *)

Section EncoderFacts.
Import parser.

Lemma readType_typeDigit (t : PacketType) : readType (typeDigit t) = Ok t.
Proof. destruct t; reflexivity. Qed.

Lemma typeDigit_not_b (t : PacketType) : Byte.eqb (typeDigit t) "b"%byte = false.
Proof. destruct t; reflexivity. Qed.

Lemma typeDigit_ascii (t : PacketType) : utf8.isASCII (typeDigit t).
Proof. destruct t; vm_compute; reflexivity. Qed.

Lemma binary_flag (o : PacketOption) :
  opt_eqb (opt_and o BINARY) BINARY = true <-> o = BINARY.
Proof. destruct o; simpl; split; congruence. Qed.

Lemma no_binary_flag (o : PacketOption) :
  opt_eqb (opt_and o BINARY) BINARY = false <-> o = NoOption.
Proof. destruct o; simpl; split; congruence. Qed.

(** What the string encoder accepts it writes as the type digit followed
    by the payload, and the string decoder reads the packet back. *)
Lemma stringEncoder_spec (packet : Packet) (data : bytes) :
  encode stringEncoder packet = Ok data ->
  data = typeDigit (Type_ packet) :: Data packet
  /\ Option packet = NoOption
  /\ utf8.Valid (Data packet) = true
  /\ decode stringEncoder data = Ok packet.
Proof.
  destruct packet as [t d o]. cbn [encode decode stringEncoder Type_ Data Option].
  destruct (opt_eqb (opt_and o BINARY) BINARY) eqn:B; [discriminate|].
  apply no_binary_flag in B. subst o.
  destruct (utf8.Valid d) eqn:V; [|discriminate].
  intro E. inversion E; subst. repeat split.
  now rewrite readType_typeDigit, V.
Qed.

(** The base64 encoder accepts every packet, and the base64 decoder reads
    back every packet whose [BINARY] flag is set. *)
Lemma base64Encoder_spec (packet : Packet) :
  Option packet = BINARY ->
  let data := "b"%byte :: typeDigit (Type_ packet)
                :: base64.EncodeToString (Data packet) in
  encode base64Encoder packet = Ok data
  /\ decode base64Encoder data = Ok packet.
Proof.
  destruct packet as [t d o]. cbn [encode decode base64Encoder Type_ Data Option].
  intros ->. split; [reflexivity|].
  replace (Byte.eqb "b"%byte "b"%byte) with true by reflexivity.
  now rewrite readType_typeDigit, DecodeString_EncodeToString.
Qed.

End EncoderFacts.

(* ================================================================== *)
(** * Properties of the payload codec *)

Section PayloadFacts.
Import parser.

(** What [writePacket] appends to the buffer: the decimal count of the
    runes of the encoded packet, a colon, and the encoded packet, which
    is not empty, is valid UTF-8 and is read back by [readPacket]. *)
Lemma writePacket_spec (bf : bytes) (packet : Packet) (out : bytes) :
  writePacket bf packet = Ok out ->
  exists data,
    out = bf ++ (strconv.Itoa (utf8.RuneCount data) ++ str ":") ++ data
    /\ data <> []
    /\ utf8.Valid data = true
    /\ readPacket data = Done (Ok packet).
Proof.
  unfold writePacket.
  destruct (opt_eqb (opt_and (Option packet) BINARY) BINARY) eqn:B; cbn [negb].
  - apply binary_flag in B.
    destruct (base64Encoder_spec packet B) as [E D].
    rewrite E. intro H. inversion H; subst; clear H.
    set (data := "b"%byte :: typeDigit (Type_ packet)
                   :: base64.EncodeToString (Data packet)) in *.
    assert (A : Forall utf8.isASCII data).
    { subst data. constructor; [vm_compute; reflexivity|].
      constructor; [apply typeDigit_ascii|apply EncodeToString_ascii]. }
    exists data. rewrite (RuneCount_ascii data A). repeat split.
    + discriminate.
    + now apply Valid_ascii.
    + subst data. unfold readPacket.
      replace (Byte.eqb "b"%byte "b"%byte) with true by reflexivity.
      cbn [negb]. now rewrite D.
  - destruct (encode stringEncoder packet) as [data|e] eqn:E; [|discriminate].
    intro H. inversion H; subst; clear H.
    destruct (stringEncoder_spec packet data E) as (-> & _ & V & D).
    exists (typeDigit (Type_ packet) :: Data packet). repeat split.
    + discriminate.
    + now rewrite Valid_cons_ascii by apply typeDigit_ascii.
    + unfold readPacket. rewrite typeDigit_not_b. cbn [negb]. now rewrite D.
Qed.

Lemma writePacket_prepend (bf : bytes) (packet : Packet) :
  writePacket bf packet
  = match writePacket [] packet with
    | Ok frame => Ok (bf ++ frame)
    | Err e => Err e
    end.
Proof.
  unfold writePacket.
  destruct (negb (opt_eqb (opt_and (Option packet) BINARY) BINARY)).
  - destruct (encode stringEncoder packet) as [data|e]; reflexivity.
  - destruct (encode base64Encoder packet) as [data|e]; reflexivity.
Qed.

(** The buffer [Encode] starts from stays in front of what it writes. *)
Lemma Encode_loop_prepend (packets : list Packet) (bf : bytes) :
  Encode_loop bf packets
  = match Encode_loop [] packets with
    | Ok u => Ok (bf ++ u)
    | Err e => Err e
    end.
Proof.
  revert bf. induction packets as [|p ps IH]; intro bf; cbn [Encode_loop].
  - now rewrite app_nil_r.
  - rewrite (writePacket_prepend bf p).
    destruct (writePacket [] p) as [frame|e]; [|reflexivity].
    rewrite (IH (bf ++ frame)), (IH frame).
    destruct (Encode_loop [] ps) as [u|e]; [|reflexivity].
    now rewrite app_assoc.
Qed.

(** The encoding of a batch is the frame of its first packet followed by
    the encoding of the others. *)
Lemma Encode_loop_cons (p : Packet) (ps : list Packet) (u : bytes) :
  Encode_loop [] (p :: ps) = Ok u ->
  exists frame u',
    writePacket [] p = Ok frame /\ Encode_loop [] ps = Ok u' /\ u = frame ++ u'.
Proof.
  cbn [Encode_loop].
  destruct (writePacket [] p) as [frame|e]; [|discriminate].
  rewrite (Encode_loop_prepend ps frame).
  destruct (Encode_loop [] ps) as [u'|e]; [|discriminate].
  intro H. inversion H; subst. now exists frame, u'.
Qed.

(** ** Reading a length *)

Lemma digit_not_colon (c : byte) :
  strconv.isDigit c = true -> Byte.eqb c ":"%byte = false.
Proof.
  intro H. destruct (Byte.eqb c ":"%byte) eqn:E; [|reflexivity].
  apply Byte.byte_dec_bl in E. subst c. vm_compute in H. discriminate.
Qed.

Lemma indexColon_digits (ds rest : bytes) (i : nat) :
  Forall (fun c => strconv.isDigit c = true) ds ->
  indexColon (ds ++ ":"%byte :: rest) i = Some (i + List.length ds)%nat.
Proof.
  intro H. revert i. induction H as [|c ds Hc Hds IH]; intro i; cbn [app indexColon].
  - replace (Byte.eqb ":"%byte ":"%byte) with true by reflexivity.
    cbn [negb List.length]. f_equal. lia.
  - rewrite (digit_not_colon c Hc). cbn [negb List.length].
    rewrite IH. f_equal. lia.
Qed.

(** A length written by [writePacket] is read back, and what follows the
    colon is left. *)
Lemma readPacketLength_Itoa (n : Z) (rest : bytes) :
  (0 <= n <= strconv.maxInt)%Z ->
  readPacketLength ((strconv.Itoa n ++ str ":") ++ rest) = (n, rest, None).
Proof.
  intro Hn. destruct (Itoa_digits n) as [_ Hd]; [lia|].
  unfold readPacketLength. rewrite <- app_assoc.
  change (str ":" ++ rest) with (":"%byte :: rest).
  rewrite (indexColon_digits _ rest 0 Hd). cbn [Nat.add].
  rewrite firstn_app, Nat.sub_diag, firstn_all. cbn [firstn]. rewrite app_nil_r.
  rewrite (Atoi_Itoa n Hn).
  rewrite skipn_app, skipn_all2 by lia.
  replace (List.length (strconv.Itoa n) + 1 - List.length (strconv.Itoa n))%nat
    with 1%nat by lia.
  reflexivity.
Qed.

(** Without a colon there is no length. *)
Lemma readPacketLength_no_colon (input : bytes) :
  indexColon input 0 = None ->
  readPacketLength input = (0%Z, [], Some "invalid payload string"%string).
Proof. intro H. unfold readPacketLength. now rewrite H. Qed.

(** ** Walking the runes of a packet *)

Lemma readPacketString_loop_exact (data rest pre : bytes) :
  utf8.Valid data = true
  \/ (forall c rest', rest = c :: rest' ->
                      utf8.outside utf8.locb utf8.hicb (b2n c) = true) ->
  readPacketString_loop (Z.to_nat (utf8.RuneCount data))
                        (pre ++ data ++ rest) (List.length pre)
  = (List.length pre + List.length data)%nat.
Proof.
  revert pre. induction data as [|data Hd IH] using rune_ind; intros pre H.
  - rewrite RuneCount_nil. simpl. lia.
  - rewrite (RuneCount_step data Hd).
    pose proof (RuneCount_bounds (skipn (utf8.width data) data)) as [[B _] _].
    replace (Z.to_nat (1 + utf8.RuneCount (skipn (utf8.width data) data)))
      with (S (Z.to_nat (utf8.RuneCount (skipn (utf8.width data) data)))) by lia.
    cbn [readPacketString_loop].
    assert (L : (List.length pre <? List.length (pre ++ data ++ rest))%nat = true).
    { apply Nat.ltb_lt. rewrite !length_app.
      destruct data; [congruence|simpl; lia]. }
    rewrite L.
    rewrite skipn_app, skipn_all, Nat.sub_diag. cbn [skipn app].
    assert (S : utf8.DecodeRune (data ++ rest) = utf8.DecodeRune data).
    { apply DecodeRune_app; [exact Hd|].
      destruct H as [V|R]; [left; now apply Valid_step|now right]. }
    rewrite S. fold (utf8.width data).
    destruct (utf8.DecodeRune data) as [r w] eqn:E.
    assert (W : utf8.width data = w) by (unfold utf8.width; now rewrite E).
    pose proof (width_bounds data Hd) as Wb. rewrite W in *.
    specialize (IH (pre ++ firstn w data)).
    rewrite length_app, firstn_length_le in IH by lia.
    rewrite <- app_assoc, (app_assoc (firstn w data)), firstn_skipn in IH.
    rewrite IH.
    + rewrite length_skipn. lia.
    + destruct H as [V|R]; [left|now right].
      rewrite <- W. now apply Valid_step.
Qed.

(** [readPacketString] given the count of the runes of an encoded packet
    peels off exactly that packet. *)
Lemma readPacketString_exact (data rest : bytes) :
  utf8.Valid data = true ->
  readPacketString (data ++ rest) (utf8.RuneCount data) = (data, rest, None).
Proof.
  intro V. unfold readPacketString.
  pose proof (readPacketString_loop_exact data rest [] (or_introl V)) as E.
  cbn [app List.length Nat.add] in E. rewrite E.
  rewrite firstn_app, Nat.sub_diag, firstn_all. cbn [firstn]. rewrite app_nil_r.
  rewrite skipn_app, skipn_all, Nat.sub_diag. reflexivity.
Qed.

(** When fewer runes are left than [size] asks for, [readPacketString]
    takes all that is left. *)
Lemma readPacketString_loop_short (body pre : bytes) (k : nat) :
  (utf8.RuneCount body <= Z.of_nat k)%Z ->
  readPacketString_loop k (pre ++ body) (List.length pre)
  = (List.length pre + List.length body)%nat.
Proof.
  revert pre k. induction body as [|body Hb IH] using rune_ind; intros pre k H.
  - rewrite app_nil_r. cbn [List.length]. rewrite Nat.add_0_r.
    destruct k as [|k]; cbn [readPacketString_loop]; [reflexivity|].
    now rewrite Nat.ltb_irrefl.
  - rewrite (RuneCount_step body Hb) in H.
    pose proof (RuneCount_bounds (skipn (utf8.width body) body)) as [[B _] _].
    destruct k as [|k]; [lia|]. cbn [readPacketString_loop].
    assert (L : (List.length pre <? List.length (pre ++ body))%nat = true).
    { apply Nat.ltb_lt. rewrite length_app.
      destruct body; [congruence|simpl; lia]. }
    rewrite L, skipn_app, skipn_all, Nat.sub_diag. cbn [skipn app].
    fold (utf8.width body).
    destruct (utf8.DecodeRune body) as [r w] eqn:E.
    assert (W : utf8.width body = w) by (unfold utf8.width; now rewrite E).
    pose proof (width_bounds body Hb) as Wb. rewrite W in *.
    specialize (IH (pre ++ firstn w body) k).
    rewrite length_app, firstn_length_le in IH by lia.
    rewrite <- app_assoc, firstn_skipn in IH.
    rewrite IH by lia. rewrite length_skipn. lia.
Qed.

Lemma readPacketString_short (body : bytes) (size : Z) :
  (utf8.RuneCount body <= size)%Z ->
  readPacketString body size = (body, [], None).
Proof.
  intro H. unfold readPacketString.
  pose proof (readPacketString_loop_short body [] (Z.to_nat size)) as E.
  cbn [app List.length Nat.add] in E. rewrite E by lia.
  now rewrite firstn_all, skipn_all.
Qed.

(** ** The loop of [Decode] *)

(** More fuel does not change a result. *)
Lemma Decode_loop_more_fuel (fuel : nat) :
  forall size err rest packets r,
    Decode_loop fuel size err rest packets = Some r ->
    forall fuel', (fuel <= fuel')%nat ->
             Decode_loop fuel' size err rest packets = Some r.
Proof.
  induction fuel as [|fuel IH]; intros size err rest packets r H fuel' Hle;
    [discriminate|].
  destruct fuel' as [|fuel']; [lia|]. cbn [Decode_loop] in *.
  destruct (0 <? List.length rest)%nat; [|exact H].
  destruct (size =? 0)%Z.
  - destruct (readPacketLength rest) as [[size' rest'] err'].
    apply (IH _ _ _ _ _ H). lia.
  - destruct (readPacketString rest size) as [[content rest'] e].
    destruct (readPacket content) as [[packet|e']|msg]; try exact H.
    apply (IH _ _ _ _ _ H). lia.
Qed.

Lemma readPacketLength_shorter (rest : bytes) :
  rest <> [] ->
  (List.length (snd (fst (readPacketLength rest))) < List.length rest)%nat.
Proof.
  intro H. unfold readPacketLength.
  assert (L : (0 < List.length rest)%nat) by (destruct rest; [congruence|simpl; lia]).
  destruct (indexColon rest 0) as [i|]; [|exact L].
  destruct (strconv.Atoi (firstn i rest)); [|exact L].
  cbn [fst snd]. rewrite length_skipn. lia.
Qed.

(** [Decode] returns: its loop ends within as many iterations as the
    input has bytes, plus one. *)
Lemma Decode_loop_total (fuel : nat) :
  forall size err rest packets,
    (List.length rest < fuel)%nat ->
    Decode_loop fuel size err rest packets <> None.
Proof.
  induction fuel as [|fuel IH]; intros size err rest packets H; [lia|].
  cbn [Decode_loop].
  destruct (0 <? List.length rest)%nat eqn:L; [|discriminate].
  apply Nat.ltb_lt in L.
  assert (Hr : rest <> []) by (destruct rest; [simpl in L; lia|discriminate]).
  destruct (size =? 0)%Z eqn:Z0.
  - pose proof (readPacketLength_shorter rest Hr) as S.
    destruct (readPacketLength rest) as [[size' rest'] err']. cbn [fst snd] in S.
    apply IH. lia.
  - unfold readPacketString.
    set (i := readPacketString_loop (Z.to_nat size) rest 0).
    destruct (readPacket (firstn i rest)) as [[packet|e']|msg] eqn:R; try discriminate.
    apply IH. rewrite length_skipn.
    destruct i as [|i]; [|lia]. discriminate.
Qed.

(** [Decode] returns, or panics, on every input. *)
Lemma Decode_returns (input : bytes) : Decode input <> None.
Proof. unfold Decode. apply Decode_loop_total. lia. Qed.

(** Every frame holds at least a digit and a colon. *)
Lemma Encode_loop_length (packets : list Packet) (u : bytes) :
  Encode_loop [] packets = Ok u -> (2 * List.length packets <= List.length u)%nat.
Proof.
  revert u. induction packets as [|p ps IH]; intros u H; [simpl; lia|].
  destruct (Encode_loop_cons p ps u H) as (frame & u' & W & E & ->).
  destruct (writePacket_spec [] p frame W) as (data & -> & Hd & _ & _).
  specialize (IH u' E).
  pose proof (RuneCount_bounds data) as [[B0 _] _].
  destruct (Itoa_digits (utf8.RuneCount data) B0) as [Hn _].
  cbn [app List.length]. rewrite !length_app.
  destruct (strconv.Itoa (utf8.RuneCount data)); [congruence|].
  change (List.length (str ":")) with 1%nat. cbn [List.length]. lia.
Qed.

(** Decoding the encoding of a batch, followed by anything: after two
    iterations for each packet the loop has read the batch and stands in
    front of what follows. *)
Lemma Decode_loop_frames (packets : list Packet) :
  forall u, Encode_loop [] packets = Ok u ->
  (Z.of_nat (List.length u) <= strconv.maxInt)%Z ->
  forall tail acc fuel err,
    Decode_loop (2 * List.length packets + fuel) 0 err (u ++ tail) acc
    = Decode_loop fuel 0 (match packets with [] => err | _ :: _ => None end)
                  tail (acc ++ packets).
Proof.
  induction packets as [|p ps IH]; intros u H Hmax tail acc fuel err.
  - cbn [Encode_loop] in H. inversion H; subst.
    cbn [List.length Nat.mul Nat.add app]. now rewrite app_nil_r.
  - destruct (Encode_loop_cons p ps u H) as (frame & u' & W & E & ->).
    destruct (writePacket_spec [] p frame W) as (data & -> & Hd & V & R).
    pose proof (RuneCount_bounds data) as [[B0 B1] B2]. specialize (B2 Hd).
    rewrite !length_app in Hmax. cbn [app] in *.
    replace (2 * List.length (p :: ps) + fuel)%nat
      with (S (S (2 * List.length ps + fuel))) by (cbn [List.length]; lia).
    cbn [Decode_loop].
    assert (L1 : (0 <? List.length
                    ((((strconv.Itoa (utf8.RuneCount data) ++ str ":") ++ data) ++ u')
                       ++ tail))%nat = true).
    { apply Nat.ltb_lt. rewrite !length_app.
      destruct data; [congruence|cbn [List.length]; lia]. }
    rewrite L1. replace (0 =? 0)%Z with true by reflexivity.
    rewrite <- !app_assoc.
    rewrite (app_assoc (strconv.Itoa (utf8.RuneCount data)) (str ":")).
    rewrite readPacketLength_Itoa by lia.
    assert (L2 : (0 <? List.length (data ++ u' ++ tail))%nat = true).
    { apply Nat.ltb_lt. rewrite length_app.
      destruct data; [congruence|cbn [List.length]; lia]. }
    rewrite L2.
    replace (utf8.RuneCount data =? 0)%Z with false by (symmetry; apply Z.eqb_neq; lia).
    rewrite (readPacketString_exact data (u' ++ tail) V), R.
    rewrite (IH u' E) by lia.
    rewrite <- app_assoc. cbn [app]. now destruct ps.
Qed.

(** ** Claims about the payload codec *)

(** C10.  [Encode] of an empty batch of packets returns an error and no
    bytes. *)
Theorem Encode_empty_is_error :
  Encode [] = Err "input packets is empty"%string.
Proof. reflexivity. Qed.

(** C4.  For every batch of packets that [Encode] accepts (it is then not
    empty), [Decode] of the bytes written returns, without error, exactly
    the packets of the batch in their order.  The bytes written are a Go
    slice, so their number fits an [int]. *)
Theorem Decode_Encode (packets : list Packet) (out : bytes) :
  Encode packets = Ok out ->
  (Z.of_nat (List.length out) <= strconv.maxInt)%Z ->
  packets <> [] /\ Decode out = Some (Done (packets, None)).
Proof.
  unfold Encode. intros H Hmax.
  destruct (List.length packets <? 1)%nat eqn:L; [discriminate|].
  apply Nat.ltb_ge in L.
  split; [destruct packets; [simpl in L; lia|discriminate]|].
  unfold Decode.
  pose proof (Decode_loop_frames packets out H Hmax [] [] 1%nat None) as F.
  rewrite app_nil_r in F. cbn [app] in F.
  apply (Decode_loop_more_fuel (2 * List.length packets + 1)).
  - rewrite F. cbn [Decode_loop List.length Nat.ltb Nat.leb]. now destruct packets.
  - pose proof (Encode_loop_length packets out H). lia.
Qed.

(** C6 as amended.  An unterminated length prefix is an error: when the
    input is the encoding of any batch, or nothing, followed by bytes
    that are not empty and hold no colon, [Decode] returns an error.  A
    premature end of the input after the colon is not: when fewer runes
    are left than the length declares, [Decode] hands what is left to the
    single-packet decoder and returns what that one returns, and no
    packet and no error when nothing is left. *)
Theorem Decode_premature_end :
  (forall packets u tail,
      Encode_loop [] packets = Ok u ->
      (Z.of_nat (List.length u) <= strconv.maxInt)%Z ->
      tail <> [] -> indexColon tail 0 = None ->
      Decode (u ++ tail)
      = Some (Done (packets, Some "invalid payload string"%string)))
  /\ (forall size body,
         (0 < size <= strconv.maxInt)%Z ->
         (utf8.RuneCount body < size)%Z ->
         Decode ((strconv.Itoa size ++ str ":") ++ body)
         = Some match body with
                | [] => Done ([], None)
                | _ :: _ =>
                  match readPacket body with
                  | Done (Ok packet) => Done ([packet], None)
                  | Done (Err err) => Done ([], Some err)
                  | Panic msg => Panic msg
                  end
                end).
Proof.
  split.
  - intros packets u tail H Hmax Ht Hc. unfold Decode.
    pose proof (Decode_loop_frames packets u H Hmax tail [] 2%nat None) as F.
    cbn [app] in F.
    apply (Decode_loop_more_fuel (2 * List.length packets + 2)).
    + rewrite F. cbn [Decode_loop].
      replace (0 <? List.length tail)%nat with true
        by (symmetry; apply Nat.ltb_lt; destruct tail; [congruence|simpl; lia]).
      replace (0 =? 0)%Z with true by reflexivity.
      rewrite (readPacketLength_no_colon tail Hc).
      cbn [List.length Nat.ltb Nat.leb]. now destruct packets.
    + pose proof (Encode_loop_length packets u H). rewrite length_app.
      destruct tail; [congruence|cbn [List.length]; lia].
  - intros size body Hs Hb. unfold Decode.
    destruct (Itoa_digits size) as [Hn _]; [lia|].
    assert (L : (3 <= S (List.length ((strconv.Itoa size ++ str ":") ++ body)))%nat).
    { rewrite !length_app. change (List.length (str ":")) with 1%nat.
      destruct (strconv.Itoa size); [congruence|cbn [List.length]; lia]. }
    apply (Decode_loop_more_fuel 3); [|exact L].
    cbn [Decode_loop].
    replace (0 <? List.length ((strconv.Itoa size ++ str ":") ++ body))%nat with true
      by (symmetry; apply Nat.ltb_lt; lia).
    replace (0 =? 0)%Z with true by reflexivity.
    rewrite readPacketLength_Itoa by lia.
    destruct body as [|c body]; [reflexivity|].
    cbn [List.length Nat.ltb Nat.leb].
    replace (size =? 0)%Z with false by (symmetry; apply Z.eqb_neq; lia).
    rewrite readPacketString_short by lia.
    destruct (readPacket (c :: body)) as [[packet|err]|msg]; reflexivity.
Qed.

End PayloadFacts.

(** C6 as stated fails: the input [5:] announces five runes and ends, and
    [Decode] returns no packet and no error; the input [5:4a] announces
    five runes and holds two, and [Decode] returns the MESSAGE packet [a]
    and no error. *)
Lemma Decode_accepts_premature_end :
  parser.Decode (str "5:") = Some (Done ([], None))
  /\ parser.Decode (str "5:4a")
     = Some (Done ([parser.mkPacket parser.MESSAGE (str "a") parser.NoOption], None)).
Proof. split; reflexivity. Qed.

(* ================================================================== *)
(** * The length prefix *)

Section LengthPrefix.
Import parser.

(** C5.  The decimal number [writePacket] puts before the colon is the
    number of UTF-8 code points of the encoded packet when the packet is
    string-encoded ([BINARY] clear): for a payload that is the UTF-8 text
    of a sequence of code points, one for the type digit plus one for
    each code point.  It is the number of bytes of the encoded packet
    when the packet is base64-encoded ([BINARY] set).  The character
    U+1F600 is four bytes and counts for one in a string-encoded
    packet. *)
Theorem writePacket_length_prefix :
  (forall bf packet data,
      Option packet = NoOption ->
      encode stringEncoder packet = Ok data ->
      writePacket bf packet
      = Ok (bf ++ (strconv.Itoa (utf8.RuneCount data) ++ str ":") ++ data))
  /\ (forall bf t runes,
         Forall (fun r => utf8.ValidRune r = true) runes ->
         writePacket bf (mkPacket t (utf8.encode_runes runes) NoOption)
         = Ok (bf ++ (strconv.Itoa (1 + Z.of_nat (List.length runes)) ++ str ":")
                  ++ typeDigit t :: utf8.encode_runes runes))
  /\ (forall bf packet,
         Option packet = BINARY ->
         let data := "b"%byte :: typeDigit (Type_ packet)
                       :: base64.EncodeToString (Data packet) in
         writePacket bf packet
         = Ok (bf ++ (strconv.Itoa (Z.of_nat (List.length data)) ++ str ":") ++ data))
  /\ (utf8.EncodeRune 0x1F600 = scenario.smiley
      /\ utf8.RuneCount scenario.smiley = 1%Z
      /\ List.length scenario.smiley = 4%nat
      /\ writePacket [] (mkPacket MESSAGE scenario.smiley NoOption)
         = Ok (str "2:4" ++ scenario.smiley)
      /\ writePacket [] (mkPacket MESSAGE scenario.smiley BINARY)
         = Ok (str "10:b48J+YgA==")).
Proof.
  split; [|split; [|split]].
  - intros bf packet data Ho E. unfold writePacket.
    rewrite Ho. cbn [opt_and opt_eqb negb]. now rewrite E.
  - intros bf t runes Hr. unfold writePacket.
    cbn [Option opt_and opt_eqb negb encode stringEncoder Type_ Data].
    destruct (encode_runes_spec runes [] Hr) as [C V].
    rewrite app_nil_r in C, V. rewrite V. change (utf8.Valid []) with true. cbv iota.
    rewrite RuneCount_cons_ascii by apply typeDigit_ascii.
    rewrite C, RuneCount_nil, Z.add_0_r. reflexivity.
  - intros bf packet Ho data. unfold writePacket.
    rewrite Ho. cbn [opt_and opt_eqb negb encode base64Encoder]. reflexivity.
  - repeat split.
Qed.

End LengthPrefix.

(* ================================================================== *)
(** * The theorems at concrete inputs *)

Lemma heartbeat_never_changes_witness :
  1000%N <> 0%N
  /\ eio.closed scenario.life = true
  /\ eio.heartbeat
       (eio.sock (snd (eio.session scenario.write_ok scenario.close_ok "abc" 1000
                                   scenario.life))) = 1000%N
  /\ (eio.closed scenario.life = true ->
      eio.heartbeat
        (eio.sock (snd (eio.session scenario.write_ok scenario.close_ok "abc" 1000
                                    scenario.life))) <> 0%N).
Proof.
  split; [discriminate|]. split; [reflexivity|].
  apply (heartbeat_never_changes scenario.write_ok scenario.close_ok "abc" 1000
                                 scenario.life).
  discriminate.
Defined.


Lemma accept_upgrade_witness :
  eio.accept scenario.close_ok
             (parser.NewPacketCustom parser.UPGRADE [] parser.NoOption)
             scenario.upgrading
  = (Done None,
     eio.mkWorld (eio.set_transportBackup None (eio.sock scenario.upgrading))
                 [eio.TransportUpgradeEnd scenario.polling scenario.websocket;
                  eio.TransportClose scenario.polling;
                  eio.UpgradeHandler scenario.onUpgrade]
                 []).
Proof.
  apply (accept_upgrade scenario.close_ok
                        (parser.NewPacketCustom parser.UPGRADE [] parser.NoOption)
                        scenario.upgrading scenario.websocket scenario.polling);
    reflexivity.
Defined.

Lemma Decode_Encode_witness :
  parser.Encode scenario.batch = Ok scenario.wire
  /\ (Z.of_nat (List.length scenario.wire) <= strconv.maxInt)%Z
  /\ scenario.batch <> []
  /\ parser.Decode scenario.wire = Some (Done (scenario.batch, None)).
Proof.
  assert (E : parser.Encode scenario.batch = Ok scenario.wire) by reflexivity.
  assert (L : (Z.of_nat (List.length scenario.wire) <= strconv.maxInt)%Z)
    by (vm_compute; discriminate).
  split; [exact E|]. split; [exact L|].
  apply (Decode_Encode scenario.batch scenario.wire E L).
Defined.

Lemma writePacket_length_prefix_witness :
  Forall (fun r => utf8.ValidRune r = true) [0x1F600%N]
  /\ parser.writePacket [] (parser.mkPacket parser.MESSAGE
                                            (utf8.encode_runes [0x1F600%N])
                                            parser.NoOption)
     = Ok ([] ++ (strconv.Itoa (1 + Z.of_nat (List.length [0x1F600%N])) ++ str ":")
              ++ parser.typeDigit parser.MESSAGE :: utf8.encode_runes [0x1F600%N]).
Proof.
  assert (V : Forall (fun r => utf8.ValidRune r = true) [0x1F600%N])
    by (constructor; [reflexivity|constructor]).
  split; [exact V|].
  apply (proj1 (proj2 writePacket_length_prefix) [] parser.MESSAGE [0x1F600%N] V).
Defined.

Lemma Decode_premature_end_witness :
  parser.Decode (scenario.wire ++ str "12")
  = Some (Done (scenario.batch, Some "invalid payload string"%string))
  /\ parser.Decode ((strconv.Itoa 5 ++ str ":") ++ str "4a")
     = Some (Done ([parser.mkPacket parser.MESSAGE (str "a") parser.NoOption], None)).
Proof.
  split.
  - apply (proj1 Decode_premature_end scenario.batch scenario.wire (str "12")).
    + reflexivity.
    + vm_compute. discriminate.
    + discriminate.
    + reflexivity.
  - apply (proj2 Decode_premature_end 5%Z (str "4a")).
    + split; [reflexivity|vm_compute; discriminate].
    + reflexivity.
Defined.

(* ================================================================== *)
(** * More about the payload codec *)

Section PayloadMore.
Import parser.

Lemma indexColon_first (pre rest : bytes) (i : nat) :
  ~ In ":"%byte pre ->
  indexColon (pre ++ ":"%byte :: rest) i = Some (i + List.length pre)%nat.
Proof.
  revert i. induction pre as [|c pre IH]; intros i H; simpl.
  - f_equal. lia.
  - destruct (Byte.eqb c ":"%byte) eqn:E.
    + apply Byte.byte_dec_bl in E. subst c. exfalso. apply H. now left.
    + simpl. rewrite IH by (intro X; apply H; now right). f_equal. lia.
Qed.

Lemma indexColon_none (input : bytes) (i : nat) :
  ~ In ":"%byte input -> indexColon input i = None.
Proof.
  revert i. induction input as [|c input IH]; intros i H; simpl; [reflexivity|].
  destruct (Byte.eqb c ":"%byte) eqn:E.
  - apply Byte.byte_dec_bl in E. subst c. exfalso. apply H. now left.
  - simpl. apply IH. intro X. apply H. now right.
Qed.

Lemma readPacketLength_at_colon (pre rest : bytes) :
  ~ In ":"%byte pre ->
  readPacketLength (pre ++ ":"%byte :: rest)
  = match strconv.Atoi pre with
    | Ok size => (size, rest, None)
    | Err err => (0%Z, [], Some err)
    end.
Proof.
  intro H. unfold readPacketLength.
  rewrite (indexColon_first pre rest 0 H). cbn [Nat.add].
  rewrite firstn_app, firstn_all, Nat.sub_diag. cbn [firstn]. rewrite app_nil_r.
  destruct (strconv.Atoi pre) as [size|e]; [|reflexivity].
  rewrite skipn_app, skipn_all2 by lia.
  replace (List.length pre + 1 - List.length pre)%nat with 1%nat by lia.
  reflexivity.
Qed.

(** X1.  [readPacketLength] splits its input at the first colon: what is
    before it is read by [Atoi] as the length, what is after it is the
    rest, and when [Atoi] fails its error is returned with a length of zero
    and no rest.  Input without a colon is the error "invalid payload
    string". *)
Theorem readPacketLength_splits_at_first_colon :
  (forall pre rest,
      ~ In ":"%byte pre ->
      readPacketLength (pre ++ ":"%byte :: rest)
      = match strconv.Atoi pre with
        | Ok size => (size, rest, None)
        | Err err => (0%Z, [], Some err)
        end)
  /\ (forall input,
         ~ In ":"%byte input ->
         readPacketLength input = (0%Z, [], Some "invalid payload string"%string)).
Proof.
  split.
  - exact readPacketLength_at_colon.
  - intros input H. unfold readPacketLength. now rewrite (indexColon_none input 0 H).
Qed.

(** ** [readPacketString] *)

Lemma RuneCount_firstn_step (p : bytes) (j : nat) :
  p <> [] ->
  utf8.RuneCount (firstn (utf8.width p + j) p)
  = (1 + utf8.RuneCount (firstn j (skipn (utf8.width p) p)))%Z.
Proof.
  intro Hp. pose proof (width_bounds p Hp) as W.
  assert (Hq : firstn (utf8.width p + j) p <> []).
  { destruct p; [congruence|]. destruct (utf8.width (b :: p) + j)%nat eqn:E; [lia|discriminate]. }
  rewrite (RuneCount_step _ Hq).
  assert (E : utf8.width (firstn (utf8.width p + j) p) = utf8.width p).
  { unfold utf8.width at 1. rewrite DecodeRune_firstn by lia. reflexivity. }
  rewrite E. do 2 f_equal. symmetry. apply firstn_skipn_comm.
Qed.

(** The loop of [readPacketString] stops after [size] runes, or at the
    end of the input when it holds fewer. *)
Lemma readPacketString_loop_count (size : nat) :
  forall input pre,
    exists j,
      readPacketString_loop size (pre ++ input) (List.length pre)
      = (List.length pre + j)%nat
      /\ (j <= List.length input)%nat
      /\ (size <> 0%nat -> input <> [] -> j <> 0%nat)
      /\ utf8.RuneCount (firstn j input)
         = Z.min (Z.of_nat size) (utf8.RuneCount input).
Proof.
  induction size as [|size IH]; intros input pre.
  - exists 0%nat. cbn [readPacketString_loop firstn].
    pose proof (RuneCount_bounds input) as [[B _] _].
    split; [lia|]. split; [lia|]. split; [intro X; now elim X|].
    rewrite RuneCount_nil; lia.
  - cbn [readPacketString_loop]. destruct input as [|c t].
    + exists 0%nat. rewrite app_nil_r, Nat.ltb_irrefl.
      split; [lia|]. split; [simpl; lia|]. split; [intros _ X; now elim X|].
      cbn [firstn]. rewrite RuneCount_nil. lia.
    + set (input := c :: t) in *.
      assert (Hi : input <> []) by discriminate.
      assert (L : (List.length pre <? List.length (pre ++ input))%nat = true)
        by (apply Nat.ltb_lt; rewrite length_app; simpl; lia).
      rewrite L, skipn_app, skipn_all, Nat.sub_diag. cbn [skipn app].
      fold (utf8.width input).
      destruct (utf8.DecodeRune input) as [r w] eqn:E.
      assert (W : utf8.width input = w) by (unfold utf8.width; now rewrite E).
      pose proof (width_bounds input Hi) as Wb. rewrite W in Wb.
      destruct (IH (skipn w input) (pre ++ firstn w input)) as (j & E1 & E2 & _ & E4).
      rewrite length_app, firstn_length_le in E1 by lia.
      rewrite <- app_assoc, firstn_skipn in E1.
      exists (w + j)%nat. rewrite length_skipn in E2.
      split; [rewrite E1; lia|]. split; [lia|]. split; [lia|].
      rewrite <- W, (RuneCount_firstn_step input j Hi), W, E4.
      rewrite (RuneCount_step input Hi), W. lia.
Qed.



(** ** [Decode] *)

(** The result of the loop does not depend on the fuel, once there is
    enough of it. *)
Lemma Decode_loop_fuel (fuel1 fuel2 : nat) (size : Z) (err : option error)
      (rest : bytes) (packets : list Packet) :
  (List.length rest < fuel1)%nat -> (List.length rest < fuel2)%nat ->
  Decode_loop fuel1 size err rest packets = Decode_loop fuel2 size err rest packets.
Proof.
  intros H1 H2.
  destruct (Decode_loop fuel1 size err rest packets) as [r1|] eqn:E1;
    [|now apply Decode_loop_total in E1].
  destruct (Decode_loop fuel2 size err rest packets) as [r2|] eqn:E2;
    [|now apply Decode_loop_total in E2].
  destruct (Nat.le_ge_cases fuel1 fuel2) as [L|L].
  - rewrite (Decode_loop_more_fuel _ _ _ _ _ _ E1 _ L) in E2. congruence.
  - rewrite (Decode_loop_more_fuel _ _ _ _ _ _ E2 _ L) in E1. congruence.
Qed.

(** One iteration of the loop at a length prefix. *)
Lemma Decode_loop_length_step (fuel : nat) (err : option error) (rest : bytes)
      (packets : list Packet) :
  rest <> [] ->
  Decode_loop (S fuel) 0 err rest packets
  = let '(size', rest', err') := readPacketLength rest in
    Decode_loop fuel size' err' rest' packets.
Proof.
  intro H. cbn [Decode_loop].
  destruct rest; [congruence|reflexivity].
Qed.

(** One iteration of the loop at the body of a packet. *)
Lemma Decode_loop_body_step (fuel : nat) (size : Z) (err : option error) (rest : bytes)
      (packets : list Packet) :
  rest <> [] -> size <> 0%Z ->
  Decode_loop (S fuel) size err rest packets
  = let '(content, rest', _) := readPacketString rest size in
    match readPacket content with
    | Panic msg => Some (Panic msg)
    | Done (Err err') => Some (Done ([], Some err'))
    | Done (Ok packet) => Decode_loop fuel 0%Z None rest' (packets ++ [packet])
    end.
Proof.
  intros H Hs. cbn [Decode_loop].
  destruct rest; [congruence|]. cbn [List.length Nat.ltb Nat.leb].
  apply Z.eqb_neq in Hs. now rewrite Hs.
Qed.

(** Decoding what [Encode] wrote, followed by anything: the packets are
    read back and the loop goes on with what follows. *)
Lemma Decode_frames_then (packets : list Packet) (u tail : bytes) :
  Encode_loop [] packets = Ok u ->
  (Z.of_nat (List.length u) <= strconv.maxInt)%Z ->
  Decode (u ++ tail) = Decode_loop (S (List.length tail)) 0 None tail packets.
Proof.
  intros H Hmax. unfold Decode.
  pose proof (Encode_loop_length packets u H) as L.
  pose proof (Decode_loop_frames packets u H Hmax tail [] (S (List.length tail)) None) as F.
  cbn [app] in F.
  replace (match packets with [] => None | _ :: _ => None end)
    with (@None error) in F by now destruct packets.
  destruct (Decode_loop (S (List.length tail)) 0 None tail packets) as [r|] eqn:E;
    [|apply Decode_loop_total in E; [contradiction|lia]].
  apply (Decode_loop_more_fuel _ _ _ _ _ _ F). rewrite length_app. lia.
Qed.

(** X3.  The loop of [Decode] ends on every input: [Decode] returns or
    panics. *)
Theorem Decode_terminates (input : bytes) :
  exists r, Decode input = Some r.
Proof.
  unfold Decode.
  destruct (Decode_loop (S (List.length input)) 0 None input []) as [r|] eqn:E.
  - now exists r.
  - apply Decode_loop_total in E; [contradiction|lia].
Qed.

(** X4.  A length prefix that reads as zero is skipped: decoding goes on
    after its colon as if the prefix were not there. *)
Theorem Decode_skips_zero_length (pre rest : bytes) :
  ~ In ":"%byte pre -> strconv.Atoi pre = Ok 0%Z ->
  Decode (pre ++ ":"%byte :: rest) = Decode rest.
Proof.
  intros H A. unfold Decode.
  rewrite Decode_loop_length_step by (now destruct pre).
  rewrite (readPacketLength_at_colon pre rest H), A.
  apply Decode_loop_fuel; rewrite ?length_app; simpl; lia.
Qed.

(** X5.  A negative length prefix followed by at least one byte makes
    [Decode] panic, at the start of the input or after any number of
    packets written by [Encode]: [readPacketString] returns an empty
    content and [readPacket] indexes its first byte. *)
Theorem Decode_negative_length_panics
        (packets : list Packet) (u pre rest : bytes) (n : Z) :
  Encode_loop [] packets = Ok u ->
  (Z.of_nat (List.length u) <= strconv.maxInt)%Z ->
  ~ In ":"%byte pre -> strconv.Atoi pre = Ok n -> (n < 0)%Z -> rest <> [] ->
  Decode (u ++ pre ++ ":"%byte :: rest) = Some (Panic "index out of range").
Proof.
  intros H Hmax Hc A Hn Hr.
  rewrite (Decode_frames_then packets u _ H Hmax).
  rewrite Decode_loop_length_step by (now destruct pre).
  rewrite (readPacketLength_at_colon pre rest Hc), A.
  rewrite length_app. cbn [List.length]. rewrite Nat.add_succ_r.
  rewrite Decode_loop_body_step by (trivial; lia).
  unfold readPacketString.
  replace (Z.to_nat n) with 0%nat by lia. reflexivity.
Qed.

(** A length read by [Atoi] is negative only when it is written with a
    minus sign. *)
Lemma Atoi_no_minus (s : bytes) (n : Z) :
  strconv.Atoi s = Ok n -> ~ In "-"%byte s -> (0 <= n)%Z.
Proof.
  unfold strconv.Atoi. destruct s as [|c t]; [discriminate|].
  intros A H.
  destruct (Byte.eqb c "-"%byte) eqn:E.
  - apply Byte.byte_dec_bl in E. subst c. exfalso. apply H. now left.
  - destruct (Byte.eqb c "+"%byte).
    + destruct t; [discriminate|].
      destruct (strconv.parseDigits (b :: t) 0); [|discriminate].
      destruct ((strconv.minInt <=? Z.of_N n0) && (Z.of_N n0 <=? strconv.maxInt))%Z;
        inversion A; lia.
    + destruct (strconv.parseDigits (c :: t) 0); [|discriminate].
      destruct ((strconv.minInt <=? Z.of_N n0) && (Z.of_N n0 <=? strconv.maxInt))%Z;
        inversion A; lia.
Qed.

Lemma In_of_firstn {A} (x : A) (k : nat) (l : list A) : In x (firstn k l) -> In x l.
Proof.
  intro H. rewrite <- (firstn_skipn k l). apply in_or_app. now left.
Qed.

Lemma In_of_skipn {A} (x : A) (k : nat) (l : list A) : In x (skipn k l) -> In x l.
Proof.
  intro H. rewrite <- (firstn_skipn k l). apply in_or_app. now right.
Qed.

Lemma indexColon_bound (input : bytes) :
  forall i k, indexColon input i = Some k -> (i <= k)%nat.
Proof.
  induction input as [|c input IH]; intros i k; simpl; [discriminate|].
  destruct (Byte.eqb c ":"%byte); simpl.
  - intro E; inversion E; lia.
  - intro E. apply IH in E. lia.
Qed.

Lemma readPacketLength_no_minus (rest : bytes) :
  ~ In "-"%byte rest ->
  let '(size, rest', _) := readPacketLength rest in
  (0 <= size)%Z /\ ~ In "-"%byte rest'.
Proof.
  intro H. unfold readPacketLength.
  destruct (indexColon rest 0) as [i|]; [|split; [lia|intros []]].
  destruct (strconv.Atoi (firstn i rest)) as [size|e] eqn:A; [|split; [lia|intros []]].
  split.
  - apply (Atoi_no_minus _ _ A). intro X. apply H. now apply In_of_firstn in X.
  - intro X. apply H. now apply In_of_skipn in X.
Qed.

Lemma Decode_loop_no_minus (fuel : nat) :
  forall size err rest packets msg,
    ~ In "-"%byte rest -> (0 <= size)%Z ->
    Decode_loop fuel size err rest packets <> Some (Panic msg).
Proof.
  induction fuel as [|fuel IH]; intros size err rest packets msg H Hs; [discriminate|].
  destruct rest as [|c t]; [discriminate|].
  set (rest := c :: t) in *. assert (Hr : rest <> []) by discriminate.
  destruct (Z.eq_dec size 0) as [->|Hz].
  - rewrite Decode_loop_length_step by exact Hr.
    pose proof (readPacketLength_no_minus rest H) as N.
    destruct (readPacketLength rest) as [[size' rest'] err'].
    destruct N as [N1 N2]. now apply IH.
  - rewrite Decode_loop_body_step by assumption.
    unfold readPacketString.
    destruct (readPacketString_loop_count (Z.to_nat size) rest [])
      as (j & E & _ & J & _).
    cbn [app List.length Nat.add] in E. rewrite E.
    assert (Hj : j <> 0%nat) by (apply J; [lia|exact Hr]).
    unfold readPacket.
    destruct (firstn j rest) as [|c0 t0] eqn:F.
    + destruct j; [congruence|discriminate].
    + destruct (negb (Byte.eqb c0 "b"%byte)).
      * destruct (decode stringEncoder (c0 :: t0)); [|discriminate].
        apply IH; [|lia]. intro X. apply H. now apply In_of_skipn in X.
      * destruct (decode base64Encoder (c0 :: t0)); [|discriminate].
        apply IH; [|lia]. intro X. apply H. now apply In_of_skipn in X.
Qed.

(** X6.  [Decode] panics only on input that holds a minus sign: on every
    other input it returns packets, an error, or both. *)
Theorem Decode_without_minus_never_panics (input : bytes) :
  ~ In "-"%byte input ->
  exists packets err, Decode input = Some (Done (packets, err)).
Proof.
  intro H. unfold Decode.
  destruct (Decode_loop (S (List.length input)) 0 None input []) as [[[packets err]|msg]|] eqn:E.
  - now exists packets, err.
  - now apply Decode_loop_no_minus in E.
  - apply Decode_loop_total in E; [contradiction|lia].
Qed.

(** X7.  When the single-packet decoder rejects the content of a frame,
    [Decode] returns its error and no packet at all: the packets decoded
    before the bad frame are dropped, and what follows it is not read. *)
Theorem Decode_bad_packet_drops_all
        (packets : list Packet) (u content tail : bytes) (e : error) :
  Encode_loop [] packets = Ok u ->
  (Z.of_nat (List.length u) <= strconv.maxInt)%Z ->
  content <> [] -> utf8.Valid content = true ->
  (utf8.RuneCount content <= strconv.maxInt)%Z ->
  readPacket content = Done (Err e) ->
  Decode (u ++ (strconv.Itoa (utf8.RuneCount content) ++ str ":") ++ content ++ tail)
  = Some (Done ([], Some e)).
Proof.
  intros H Hmax Hc V Hn R.
  pose proof (RuneCount_bounds content) as [[B0 _] B1]. specialize (B1 Hc).
  rewrite (Decode_frames_then packets u _ H Hmax).
  rewrite Decode_loop_length_step
    by (rewrite <- app_assoc; intro X; apply app_eq_nil in X as [_ X];
        apply app_eq_nil in X as [X _]; discriminate).
  rewrite readPacketLength_Itoa by lia.
  rewrite (Decode_loop_fuel _ (S (List.length (content ++ tail))))
    by (rewrite !length_app; change (List.length (str ":")) with 1%nat; lia).
  rewrite Decode_loop_body_step; [|now destruct content|lia].
  rewrite (readPacketString_exact content tail V), R. reflexivity.
Qed.

(** X8.  When a length prefix is not a number, [Decode] stops and
    returns the error of [Atoi] together with the packets it decoded
    before; what follows the colon is not read. *)
Theorem Decode_bad_length_keeps_packets
        (packets : list Packet) (u pre rest : bytes) (e : error) :
  Encode_loop [] packets = Ok u ->
  (Z.of_nat (List.length u) <= strconv.maxInt)%Z ->
  ~ In ":"%byte pre -> strconv.Atoi pre = Err e ->
  Decode (u ++ pre ++ ":"%byte :: rest) = Some (Done (packets, Some e)).
Proof.
  intros H Hmax Hc A.
  rewrite (Decode_frames_then packets u _ H Hmax).
  rewrite Decode_loop_length_step by (now destruct pre).
  rewrite (readPacketLength_at_colon pre rest Hc), A.
  rewrite (Decode_loop_fuel _ 1) by (rewrite ?length_app; simpl; lia).
  reflexivity.
Qed.

(** The packets decoded so far are a prefix of the result. *)
Lemma Decode_loop_acc (fuel : nat) :
  forall size err rest acc0 qs,
    Decode_loop fuel size err rest acc0 = Some (Done (qs, None)) ->
    exists qs',
      qs = acc0 ++ qs'
      /\ forall acc, Decode_loop fuel size err rest acc = Some (Done (acc ++ qs', None)).
Proof.
  induction fuel as [|fuel IH]; intros size err rest acc0 qs; [discriminate|].
  cbn [Decode_loop]. destruct (0 <? List.length rest)%nat.
  - destruct (size =? 0)%Z.
    + destruct (readPacketLength rest) as [[size' rest'] err']. apply IH.
    + destruct (readPacketString rest size) as [[content rest'] x].
      destruct (readPacket content) as [[packet|e']|msg]; try discriminate.
      intro E. apply IH in E as (qs' & E1 & E2).
      exists (packet :: qs'). split.
      * now rewrite E1, <- app_assoc.
      * intro acc. rewrite E2, <- app_assoc. reflexivity.
  - intro E. inversion E; subst. exists []. split; [now rewrite app_nil_r|].
    intro acc. now rewrite app_nil_r.
Qed.

(** X9.  Decoding goes frame by frame: when input decodes to some
    packets without error, the same input after a batch written by
    [Encode] decodes to the packets of the batch followed by those. *)
Theorem Decode_after_encoded_prefix
        (packets : list Packet) (u tail : bytes) (qs : list Packet) :
  Encode_loop [] packets = Ok u ->
  (Z.of_nat (List.length u) <= strconv.maxInt)%Z ->
  Decode tail = Some (Done (qs, None)) ->
  Decode (u ++ tail) = Some (Done (packets ++ qs, None)).
Proof.
  intros H Hmax D.
  rewrite (Decode_frames_then packets u tail H Hmax).
  unfold Decode in D. apply Decode_loop_acc in D as (qs' & E1 & E2).
  cbn [app] in E1. subst qs'. apply E2.
Qed.

(** ** [Encode] *)

Lemma Encode_loop_app (ps1 ps2 : list Packet) (bf : bytes) :
  Encode_loop bf (ps1 ++ ps2)
  = match Encode_loop bf ps1 with
    | Ok u => Encode_loop u ps2
    | Err e => Err e
    end.
Proof.
  revert bf. induction ps1 as [|p ps1 IH]; intro bf; cbn [app Encode_loop]; [reflexivity|].
  destruct (writePacket bf p); [apply IH|reflexivity].
Qed.

(** X10.  [Encode] succeeds exactly when there is at least one packet and
    [writePacket] succeeds on each of them, and its output is then the
    frames of the packets, one after the other in the order given. *)
Theorem Encode_concatenates_frames (packets : list Packet) (out : bytes) :
  Encode packets = Ok out
  <-> packets <> []
      /\ exists frames,
          Forall2 (fun packet frame => writePacket [] packet = Ok frame) packets frames
          /\ out = List.concat frames.
Proof.
  unfold Encode.
  assert (G : forall ps u, Encode_loop [] ps = Ok u
                           <-> exists frames,
                               Forall2 (fun packet frame => writePacket [] packet = Ok frame)
                                       ps frames
                               /\ u = List.concat frames).
  { induction ps as [|p ps IH]; intro u.
    - cbn [Encode_loop]. split.
      + intro E. inversion E. exists []. split; [constructor|reflexivity].
      + intros (frames & F & ->). inversion F. reflexivity.
    - cbn [Encode_loop]. rewrite writePacket_prepend.
      destruct (writePacket [] p) as [frame|e] eqn:W.
      + cbn [app]. rewrite Encode_loop_prepend. split.
        * destruct (Encode_loop [] ps) as [u'|e] eqn:E; [|discriminate].
          intro X. inversion X; subst.
          destruct (proj1 (IH u') eq_refl) as (frames & F & ->).
          exists (frame :: frames). split; [now constructor|reflexivity].
        * intros (frames & F & ->). inversion F as [|? f ? fs W' F']; subst.
          rewrite W in W'. inversion W'; subst f.
          rewrite (proj2 (IH (List.concat fs))) by now exists fs. reflexivity.
      + split; [discriminate|].
        intros (frames & F & _). inversion F; subst. congruence. }
  destruct packets as [|p ps].
  - cbn. split; [discriminate|]. intros [X _]. congruence.
  - change (List.length (p :: ps) <? 1)%nat with false. cbv iota.
    rewrite G. split; [intro X; split; [discriminate|exact X]|now intros [_ X]].
Qed.

(** X11.  [Encode] is all or nothing: the first packet that
    [writePacket] rejects makes it return that error, whatever was
    written before and whatever follows. *)
Theorem Encode_stops_at_first_error
        (good : list Packet) (bad : Packet) (more : list Packet) (u : bytes) (e : error) :
  Encode_loop [] good = Ok u ->
  writePacket [] bad = Err e ->
  Encode (good ++ bad :: more) = Err e.
Proof.
  intros G B. unfold Encode.
  replace (List.length (good ++ bad :: more) <? 1)%nat with false
    by (symmetry; apply Nat.ltb_ge; rewrite length_app; simpl; lia).
  rewrite Encode_loop_app, G. cbn [Encode_loop].
  now rewrite writePacket_prepend, B.
Qed.

End PayloadMore.

(* ================================================================== *)
(** * More about the socket *)

Section SocketMore.
Import parser eio.

Variable write_result : list event -> Transport -> Packet -> option error.
Variable close_result : list event -> Transport -> option error.

(** ** What every sequence of calls keeps *)

(** A relation between the world before and the world after that is
    reflexive, transitive and kept by every call is kept by every
    sequence of calls, whether it ends in a panic or not. *)
Lemma run_preserves (R : world -> world -> Prop) :
  (forall w, R w w) ->
  (forall w1 w2 w3, R w1 w2 -> R w2 w3 -> R w1 w3) ->
  (forall c w, R w (snd (invoke write_result close_result c w))) ->
  forall cs w, R w (snd (run write_result close_result cs w)).
Proof.
  intros Hrefl Htrans Hstep. unfold run.
  induction cs as [|c cs IH]; intro w; cbn [for_each]; [apply Hrefl|].
  unfold bind. pose proof (Hstep c w) as S.
  destruct (invoke write_result close_result c w) as [[[]|msg] w']; cbn [snd] in *.
  - exact (Htrans _ _ _ S (IH w')).
  - exact S.
Qed.

Lemma snd_bind_ret {A B} (m : M A) (b : B) (w : world) :
  snd ((m ;;; ret b) w) = snd (m w).
Proof. unfold bind, ret. now destruct (m w) as [[a|msg] w']. Qed.

(** What a call does to the socket itself: nothing, or one of eight
    assignments. *)
Lemma invoke_socket (c : call) (w : world) (p p' : socketImpl) :
  p = sock w ->
  p' = sock (snd (invoke write_result close_result c w)) ->
  p' = p
  \/ (exists h, p' = set_closeHandlers (closeHandlers p ++ [h]) p)
  \/ (exists h, p' = set_msgHandlers (msgHandlers p ++ [h]) p)
  \/ (exists h, p' = set_errorHandlers (errorHandlers p ++ [h]) p)
  \/ (exists h, p' = set_upgradeHandlers (upgradeHandlers p ++ [h]) p)
  \/ (exists v, p' = set_heartbeat v p)
  \/ (exists t, transportPrimary p = None /\ transportBackup p = None
                /\ p' = set_transportBackup (Some t) p)
  \/ (exists t, transportPrimary p = None /\ transportBackup p <> None
                /\ p' = set_transportPrimary (Some t) p)
  \/ (transportPrimary p <> None /\ transportBackup p <> None
      /\ p' = set_transportBackup None p).
Proof.
  intros Ep E. destruct c as [fn|fn|fn|fn|m| |t|packet|now32]; cbn [invoke] in E.
  - destruct fn as [h|]; cbn in E; subst; [|now left]. right; left. now exists h.
  - destruct fn as [h|]; cbn in E; subst; [|now left]. right; right; left. now exists h.
  - destruct fn as [h|]; cbn in E; subst; [|now left]. do 3 right; left. now exists h.
  - destruct fn as [h|]; cbn in E; subst; [|now left]. do 4 right; left. now exists h.
  - left. rewrite snd_bind_ret in E. subst.
    unfold eio.Send, bind, this, write, ret, panic.
    destruct (negb (isHeartbeat (sock w))); [reflexivity|].
    destruct (transportBackup (sock w)); [reflexivity|].
    destruct (transportPrimary (sock w)); reflexivity.
  - destruct (N.eq_dec (heartbeat (sock w)) 0) as [H|H].
    + destruct (Close_zero_runs close_result w H) as (evs & reason & E' & _).
      rewrite E' in E. subst. do 5 right; left. now exists 0%N.
    + rewrite (Close_open_noop close_result w H) in E. subst. now left.
  - rewrite snd_bind_ret in E. unfold setTransport, bind, this, update, ret in E.
    destruct (transportPrimary (sock w)) as [tp|] eqn:P; [subst; now left|].
    destruct (transportBackup (sock w)) as [tb|] eqn:B; cbn [snd sock] in E; subst.
    + do 7 right; left. exists t. repeat split; congruence.
    + do 6 right; left. exists t. repeat split; congruence.
  - rewrite snd_bind_ret in E. unfold accept in E.
    destruct (Type_ packet); try (subst; now left).
    + rewrite snd_bind_ret in E.
      destruct (N.eq_dec (heartbeat (sock w)) 0) as [H|H].
      * destruct (Close_zero_runs close_result w H) as (evs & reason & E' & _).
        rewrite E' in E. subst. do 5 right; left. now exists 0%N.
      * rewrite (Close_open_noop close_result w H) in E. subst. now left.
    + unfold bind at 1, this at 1 in E. rewrite snd_bind_ret, for_each_emit in E.
      subst. now left.
    + unfold bind at 1, this at 1 in E.
      destruct (transportPrimary (sock w)) as [tp|] eqn:P;
        destruct (transportBackup (sock w)) as [tb|] eqn:B;
        try (rewrite snd_bind_ret, for_each_emit in E; subst; now left).
      unfold bind at 1, upgradeEnd, emit at 1 in E.
      unfold bind at 1, update at 1 in E.
      unfold bind at 1, close at 1 in E. cbn [sock trace spawned] in E.
      do 8 right.
      destruct (close_result _ tb) as [e|].
      * subst. repeat split; congruence.
      * rewrite snd_bind_ret, for_each_emit in E. subst. repeat split; congruence.
  - unfold schedule in E. destruct (spawned w) as [|[packet] rest]; [subst; now left|].
    unfold pingReply, bind at 1, this at 1 in E. cbn [sock] in E.
    destruct (isHeartbeat (sock w)).
    + unfold bind at 1, update at 1 in E.
      unfold getTransport, bind at 1, bind at 1, this at 1 in E. cbn [sock] in E.
      do 5 right; left. exists now32.
      destruct (transportPrimary (set_heartbeat now32 (sock w)));
        [subst; reflexivity|].
      destruct (transportBackup (set_heartbeat now32 (sock w))); subst; reflexivity.
    + left. unfold bind at 1, ret at 1 in E.
      unfold getTransport, bind at 1, bind at 1, this at 1 in E. cbn [sock] in E.
      destruct (transportPrimary (sock w)); [subst; reflexivity|].
      destruct (transportBackup (sock w)); subst; reflexivity.
Qed.

(** X12.  No sequence of calls on a socket, whether it ends in a panic or
    not, changes its id or removes or reorders a registered handler: each
    of the four handler lists only grows at its end. *)
Theorem run_keeps_id_and_handlers (cs : list call) (w : world) :
  let w' := snd (run write_result close_result cs w) in
  ID (sock w') = ID (sock w)
  /\ (exists l, msgHandlers (sock w') = msgHandlers (sock w) ++ l)
  /\ (exists l, upgradeHandlers (sock w') = upgradeHandlers (sock w) ++ l)
  /\ (exists l, errorHandlers (sock w') = errorHandlers (sock w) ++ l)
  /\ (exists l, closeHandlers (sock w') = closeHandlers (sock w) ++ l).
Proof.
  cbv zeta. unfold ID. revert cs w.
  apply (run_preserves
           (fun w w' =>
              id (sock w') = id (sock w)
              /\ (exists l, msgHandlers (sock w') = msgHandlers (sock w) ++ l)
              /\ (exists l, upgradeHandlers (sock w') = upgradeHandlers (sock w) ++ l)
              /\ (exists l, errorHandlers (sock w') = errorHandlers (sock w) ++ l)
              /\ (exists l, closeHandlers (sock w') = closeHandlers (sock w) ++ l))).
  - intro w. repeat split; exists []; now rewrite app_nil_r.
  - intros w1 w2 w3 (I1 & [m1 M1] & [u1 U1] & [e1 E1] & [c1 C1])
           (I2 & [m2 M2] & [u2 U2] & [e2 E2] & [c2 C2]).
    split; [congruence|].
    split; [exists (m1 ++ m2); now rewrite M2, M1, app_assoc|].
    split; [exists (u1 ++ u2); now rewrite U2, U1, app_assoc|].
    split; [exists (e1 ++ e2); now rewrite E2, E1, app_assoc|].
    exists (c1 ++ c2); now rewrite C2, C1, app_assoc.
  - intros c w.
    destruct (invoke_socket c w _ _ eq_refl eq_refl)
      as [E|[[h E]|[[h E]|[[h E]|[[h E]|[[v E]|[(t & _ & _ & E)|[(t & _ & _ & E)|(_ & _ & E)]]]]]]]];
      rewrite E; cbn;
        (split; [reflexivity|]);
        repeat split;
        first [exists []; now rewrite app_nil_r | now exists [h]].
Qed.

(** X13.  No sequence of calls replaces a transport.  The primary
    transport, once set, stays.  The backup transport stays or is
    cleared, and it is cleared only while there is a primary one; once
    cleared beside a primary it is never set again. *)
Theorem run_never_replaces_a_transport (cs : list call) (w : world) :
  let w' := snd (run write_result close_result cs w) in
  (forall t, transportPrimary (sock w) = Some t -> transportPrimary (sock w') = Some t)
  /\ (forall t, transportBackup (sock w) = Some t ->
                transportBackup (sock w') = Some t
                \/ (transportBackup (sock w') = None
                    /\ transportPrimary (sock w') <> None))
  /\ (transportBackup (sock w) = None -> transportPrimary (sock w) <> None ->
      transportBackup (sock w') = None).
Proof.
  cbv zeta. revert cs w.
  apply (run_preserves
           (fun w w' =>
              (forall t, transportPrimary (sock w) = Some t ->
                         transportPrimary (sock w') = Some t)
              /\ (forall t, transportBackup (sock w) = Some t ->
                            transportBackup (sock w') = Some t
                            \/ (transportBackup (sock w') = None
                                /\ transportPrimary (sock w') <> None))
              /\ (transportBackup (sock w) = None -> transportPrimary (sock w) <> None ->
                  transportBackup (sock w') = None))).
  - intro w0. split; [tauto|]. split; [|tauto]. intros; now left.
  - intros w1 w2 w3 (P1 & B1 & N1) (P2 & B2 & N2).
    split; [intros t0 H; apply P2, P1, H|]. split.
    + intros t0 H. destruct (B1 t0 H) as [H'|[H' H'']]; [now apply B2|].
      right. split; [now apply N2|].
      destruct (transportPrimary (sock w2)) as [tp|] eqn:E; [|congruence].
      rewrite (P2 tp eq_refl). discriminate.
    + intros H H'. apply N2; [now apply N1|].
      destruct (transportPrimary (sock w1)) as [tp|] eqn:E; [|congruence].
      rewrite (P1 tp eq_refl). discriminate.
  - intros c w0.
    destruct (invoke_socket c w0 _ _ eq_refl eq_refl)
      as [E|[[h E]|[[h E]|[[h E]|[[h E]|[[v E]|[(t0 & P & B & E)|[(t0 & P & B & E)|(P & B & E)]]]]]]]];
      rewrite E; cbn; try (split; [tauto|]; split; [|tauto]; intros; now left).
    + split; [tauto|]. split; [|tauto]. intros t1 H. congruence.
    + split; [intros t1 H; congruence|]. split; [|tauto]. intros; now left.
    + split; [tauto|]. split; [|tauto]. intros t1 H. now right.
Qed.

(** X14.  On a socket without transports the first [setTransport] fills
    the backup slot, the second the primary slot, and the third is refused
    with "transports is full" and changes nothing. *)
Theorem setTransport_fills_backup_then_primary (t1 t2 t3 : Transport) (w : world) :
  transportPrimary (sock w) = None -> transportBackup (sock w) = None ->
  (r1 <- setTransport t1 ;; r2 <- setTransport t2 ;; r3 <- setTransport t3 ;;
   ret (r1, r2, r3)) w
  = (Done (None, None, Some "transports is full"%string),
     mkWorld (set_transportPrimary (Some t2) (set_transportBackup (Some t1) (sock w)))
             (trace w) (spawned w)).
Proof.
  intros P B. unfold setTransport, bind, this, update, ret. cbn.
  rewrite P, B. cbn. rewrite P. reflexivity.
Qed.

(** X15.  A [Close] that passes its guard closes the primary transport,
    then the backup one, also when the first close failed; the reason is
    made of the errors of the two, joined by a comma when the first is
    not empty; every close handler is then started once with that reason,
    in order of registration.  The socket keeps its transports and its
    handlers. *)
Theorem Close_closes_transports_then_notifies (w : world) :
  heartbeat (sock w) = 0%N ->
  let e1 := match transportPrimary (sock w) with
            | Some t => close_result (trace w) t
            | None => None
            end in
  let tr1 := trace w ++ match transportPrimary (sock w) with
                        | Some t => [TransportClose t]
                        | None => []
                        end in
  let e2 := match transportBackup (sock w) with
            | Some t => close_result tr1 t
            | None => None
            end in
  let tr2 := tr1 ++ match transportBackup (sock w) with
                    | Some t => [TransportClose t]
                    | None => []
                    end in
  let reason := match e1, e2 with
                | Some a, Some b =>
                  if (0 <? String.length a)%nat then ((a ++ ", ") ++ b)%string else b
                | Some a, None => a
                | None, Some b => b
                | None, None => EmptyString
                end in
  Close close_result w
  = (Done tt,
     mkWorld (sock w)
             (tr2 ++ map (fun fn => CloseHandler fn reason) (closeHandlers (sock w)))
             (spawned w)).
Proof.
  intro H. cbv zeta. unfold eio.Close, bind at 1, this.
  rewrite (isHeartbeat_true _ H).
  cbv beta iota zeta delta [negb].
  unfold bind at 1, update at 1.
  assert (S0 : set_heartbeat 0 (sock w) = sock w)
    by (unfold set_heartbeat; rewrite <- H; apply socket_eta).
  rewrite S0.
  destruct (transportPrimary (sock w)) as [tp|];
    destruct (transportBackup (sock w)) as [tb|];
    unfold bind, close, ret; cbn [sock trace spawned]; rewrite for_each_emit;
      cbn [sock trace spawned].
  - destruct (close_result (trace w) tp) as [a|];
      destruct (close_result (trace w ++ [TransportClose tp]) tb) as [b|];
      try reflexivity.
    destruct a; reflexivity.
  - rewrite app_nil_r. destruct (close_result (trace w) tp); reflexivity.
  - rewrite app_nil_r. destruct (close_result (trace w) tb); reflexivity.
  - rewrite !app_nil_r. reflexivity.
Qed.

(** X16.  [accept] never panics.  It refuses the packet types OPEN, PONG
    and NOOP with an error that names the type, leaving the socket as it
    was; CLOSE, PING and MESSAGE never give an error; UPGRADE gives one
    only in the upgrade window, the one the backup transport returns
    from [close]. *)
Theorem accept_rejects_only_unsupported_types (packet : Packet) (w : world) :
  match Type_ packet with
  | OPEN => accept close_result packet w = (Done (Some "unsupport packet: 0"%string), w)
  | PONG => accept close_result packet w = (Done (Some "unsupport packet: 3"%string), w)
  | NOOP => accept close_result packet w = (Done (Some "unsupport packet: 6"%string), w)
  | CLOSE | PING | MESSAGE => fst (accept close_result packet w) = Done None
  | UPGRADE =>
    fst (accept close_result packet w)
    = Done match transportPrimary (sock w), transportBackup (sock w) with
           | Some tp, Some tb => close_result (trace w ++ [TransportUpgradeEnd tb tp]) tb
           | _, _ => None
           end
  end.
Proof.
  unfold accept. destruct (Type_ packet); try reflexivity.
  - unfold bind.
    destruct (N.eq_dec (heartbeat (sock w)) 0) as [H|H].
    + destruct (Close_zero_runs close_result w H) as (evs & reason & E & _).
      now rewrite E.
    + now rewrite (Close_open_noop close_result w H).
  - unfold bind at 1, this at 1. unfold bind. now rewrite for_each_emit.
  - unfold bind at 1, this at 1.
    destruct (transportPrimary (sock w)) as [tp|];
      destruct (transportBackup (sock w)) as [tb|];
      try (unfold bind; now rewrite for_each_emit).
    unfold bind at 1, upgradeEnd, emit at 1.
    unfold bind at 1, update at 1.
    unfold bind at 1, close at 1. cbn [sock trace spawned].
    destruct (close_result _ tb) as [e|]; [reflexivity|].
    unfold bind. now rewrite for_each_emit.
Qed.

Lemma for_each_OnMessage (fns : list (option handler)) :
  forall w,
    for_each fns OnMessage w
    = (Done tt,
       mkWorld (set_msgHandlers
                  (msgHandlers (sock w)
                     ++ flat_map (fun fn => match fn with Some h => [h] | None => [] end) fns)
                  (sock w))
               (trace w) (spawned w)).
Proof.
  induction fns as [|fn fns IH]; intro w; cbn [for_each flat_map].
  - unfold ret, set_msgHandlers. now rewrite app_nil_r, socket_eta, world_eta.
  - unfold bind. destruct fn as [h|]; cbn [OnMessage].
    + unfold update. rewrite IH. cbn. now rewrite <- app_assoc.
    + unfold ret. apply IH.
Qed.

(** X17.  Handlers registered with [OnMessage] are called on an inbound
    MESSAGE with the payload of the packet, after those registered
    before and in order of registration; a nil handler is not
    registered. *)
Theorem messages_reach_handlers_in_registration_order
        (fns : list (option handler)) (packet : Packet) (w : world) :
  Type_ packet = MESSAGE ->
  let hs := msgHandlers (sock w)
              ++ flat_map (fun fn => match fn with Some h => [h] | None => [] end) fns in
  (for_each fns OnMessage ;;; accept close_result packet) w
  = (Done None,
     mkWorld (set_msgHandlers hs (sock w))
             (trace w ++ map (fun h => MsgHandler h (Data packet)) hs)
             (spawned w)).
Proof.
  intro T. cbv zeta. unfold bind at 1. rewrite for_each_OnMessage.
  unfold accept. rewrite T. unfold bind at 1, this at 1.
  unfold bind, ret. now rewrite for_each_emit.
Qed.

(** X18.  Outside the upgrade window an inbound UPGRADE touches no
    transport: every upgrade handler is called, in order of
    registration, and no error is returned. *)
Theorem upgrade_outside_window_only_notifies (packet : Packet) (w : world) :
  Type_ packet = UPGRADE ->
  transportPrimary (sock w) = None \/ transportBackup (sock w) = None ->
  accept close_result packet w
  = (Done None,
     mkWorld (sock w) (trace w ++ map UpgradeHandler (upgradeHandlers (sock w)))
             (spawned w)).
Proof.
  intros T H. unfold accept. rewrite T. unfold bind at 1, this at 1.
  destruct (transportPrimary (sock w)) as [tp|];
    destruct (transportBackup (sock w)) as [tb|];
    try (unfold bind, ret; now rewrite for_each_emit).
  destruct H; discriminate.
Qed.

(** X19.  The answer to a PING is a PONG with the payload of the PING and
    no option, written to the transport [Transport()] returns, the
    primary one when there is one; without any transport the goroutine
    panics.  The heartbeat-tick is set to the time of the answer when it
    was zero and left alone otherwise. *)
Theorem ping_answered_on_transport_in_use (packet : Packet) (now32 : N) (w : world) :
  Type_ packet = PING -> spawned w = [] ->
  let p' := if (heartbeat (sock w) =? 0)%N then set_heartbeat now32 (sock w)
            else sock w in
  (accept close_result packet ;;; schedule write_result now32) w
  = match socketImpl_Transport (sock w) with
    | Some t =>
      (Done tt,
       mkWorld p' (trace w ++ [TransportWrite t (NewPacketCustom PONG (Data packet) NoOption)])
               [])
    | None => (Panic "transport unavailable", mkWorld p' (trace w) [])
    end.
Proof.
  intros T S. cbv zeta. unfold accept. rewrite T.
  unfold bind at 1. unfold bind at 1, spawn, ret, schedule; cbn [sock trace spawned].
  rewrite S; cbn [app].
  unfold pingReply, bind at 1, this; cbn [sock].
  unfold isHeartbeat, socketImpl_Transport.
  destruct (heartbeat (sock w) =? 0)%N;
    unfold bind at 1, update, ret at 1, getTransport, bind, this, ret, panic, write;
    cbn;
    destruct (transportPrimary (sock w)) as [tp|]; try reflexivity;
      destruct (transportBackup (sock w)) as [tb|]; reflexivity.
Qed.

(** X20.  [getTransport] returns what [Transport()] returns and panics
    exactly when that is nil. *)
Theorem getTransport_is_Transport_or_panics (w : world) :
  getTransport w
  = match socketImpl_Transport (sock w) with
    | Some t => (Done t, w)
    | None => (Panic "transport unavailable", w)
    end.
Proof.
  unfold getTransport, socketImpl_Transport, bind, this, ret, panic.
  destruct (transportPrimary (sock w)); [reflexivity|].
  destruct (transportBackup (sock w)); reflexivity.
Qed.

End SocketMore.

Section LostMore.
Import eio.

Lemma uint32_id (z : Z) : Z.of_N (uint32 z) = (z mod 2 ^ 32)%Z.
Proof.
  unfold uint32. apply Z2N.id. apply Z.mod_pos_bound. reflexivity.
Qed.

(** X21.  When the clock has not wrapped around since the heartbeat-tick
    and fewer than [2^32] milliseconds have passed, [isLost] says whether
    the seconds passed since the tick, times 1000, exceed the ping
    timeout. *)
Theorem isLost_compares_elapsed_milliseconds (now32 pingTimeout : N) (p : socketImpl) :
  (heartbeat p <= now32)%N ->
  (1000 * (now32 - heartbeat p) < 2 ^ 32)%N ->
  isLost now32 pingTimeout p = (pingTimeout <? 1000 * (now32 - heartbeat p))%N.
Proof.
  intros H B. unfold isLost. cbv zeta. f_equal.
  unfold uint32 at 2.
  rewrite Z.mod_small by lia.
  rewrite Z2N.id by lia.
  unfold uint32. rewrite Z.mod_small by lia. lia.
Qed.

(** X22.  [isLost] computes in [uint32] and does not see time beyond its
    range: a clock [2^29] seconds later gives the same answer. *)
Theorem isLost_has_period_2_29 (now32 pingTimeout : N) (p : socketImpl) :
  isLost (uint32 (Z.of_N now32 + 2 ^ 29)) pingTimeout p = isLost now32 pingTimeout p.
Proof.
  unfold isLost. cbv zeta. f_equal.
  unfold uint32 at 1 4. f_equal.
  rewrite !uint32_id.
  rewrite Zminus_mod_idemp_l, !Zmult_mod_idemp_r.
  replace (1000 * (Z.of_N now32 + 2 ^ 29 - Z.of_N (heartbeat p)))%Z
    with (1000 * (Z.of_N now32 - Z.of_N (heartbeat p)) + 125 * 2 ^ 32)%Z by lia.
  apply Z_mod_plus_full.
Qed.

(** X23.  A socket is not lost at the time it is created, whatever the
    ping timeout. *)
Theorem newSocket_is_not_lost (id : string) (now32 pingTimeout : N) :
  isLost now32 pingTimeout (newSocket id now32) = false.
Proof.
  unfold isLost, newSocket. cbn [heartbeat]. rewrite Z.sub_diag.
  apply N.ltb_ge. cbn. lia.
Qed.

End LostMore.

(* ================================================================== *)
(** * The properties above at concrete inputs, continued *)

Lemma readPacketLength_splits_at_first_colon_witness :
  ~ In ":"%byte (str "12")
  /\ parser.readPacketLength (str "12" ++ ":"%byte :: str "4a") = (12%Z, str "4a", None)
  /\ parser.readPacketLength (str "12")
     = (0%Z, [], Some "invalid payload string"%string).
Proof.
  assert (H : ~ In ":"%byte (str "12")) by (intros [H|[H|[]]]; discriminate).
  split; [exact H|]. split.
  - exact (proj1 readPacketLength_splits_at_first_colon (str "12") (str "4a") H).
  - exact (proj2 readPacketLength_splits_at_first_colon (str "12") H).
Defined.

Lemma Decode_skips_zero_length_witness :
  strconv.Atoi (str "0") = Ok 0%Z
  /\ parser.Decode (str "0" ++ ":"%byte :: str "2:4a") = parser.Decode (str "2:4a").
Proof.
  split; [reflexivity|].
  apply (Decode_skips_zero_length (str "0") (str "2:4a")).
  - intros [H|[]]; discriminate.
  - reflexivity.
Defined.

Lemma Decode_negative_length_panics_witness :
  strconv.Atoi (str "-1") = Ok (-1)%Z
  /\ parser.Decode (scenario.wire ++ str "-1" ++ ":"%byte :: str "4a")
     = Some (Panic "index out of range").
Proof.
  split; [reflexivity|].
  apply (Decode_negative_length_panics scenario.batch scenario.wire (str "-1") (str "4a")
                                       (-1)%Z).
  - reflexivity.
  - vm_compute. discriminate.
  - intros [H|[H|[]]]; discriminate.
  - reflexivity.
  - reflexivity.
  - discriminate.
Defined.

Lemma Decode_without_minus_never_panics_witness :
  exists packets err, parser.Decode (str "2:4a") = Some (Done (packets, err)).
Proof.
  apply (Decode_without_minus_never_panics (str "2:4a")).
  intros [H|[H|[H|[H|[]]]]]; discriminate.
Defined.

Lemma Decode_bad_packet_drops_all_witness :
  parser.readPacket (str "9abc") = Done (Err "invalid packet type"%string)
  /\ parser.Decode (scenario.wire
                      ++ (strconv.Itoa (utf8.RuneCount (str "9abc")) ++ str ":")
                      ++ str "9abc" ++ str "2:4x")
     = Some (Done ([], Some "invalid packet type"%string)).
Proof.
  split; [reflexivity|].
  apply (Decode_bad_packet_drops_all scenario.batch scenario.wire (str "9abc") (str "2:4x")).
  - reflexivity.
  - vm_compute. discriminate.
  - discriminate.
  - reflexivity.
  - vm_compute. discriminate.
  - reflexivity.
Defined.

Lemma Decode_bad_length_keeps_packets_witness :
  strconv.Atoi (str "x") = Err strconv.ErrSyntax
  /\ parser.Decode (scenario.wire ++ str "x" ++ ":"%byte :: str "4a")
     = Some (Done (scenario.batch, Some strconv.ErrSyntax)).
Proof.
  split; [reflexivity|].
  apply (Decode_bad_length_keeps_packets scenario.batch scenario.wire (str "x") (str "4a")).
  - reflexivity.
  - vm_compute. discriminate.
  - intros [H|[]]; discriminate.
  - reflexivity.
Defined.

Lemma Decode_after_encoded_prefix_witness :
  parser.Decode (str "2:4a")
  = Some (Done ([parser.mkPacket parser.MESSAGE (str "a") parser.NoOption], None))
  /\ parser.Decode (scenario.wire ++ str "2:4a")
     = Some (Done (scenario.batch
                     ++ [parser.mkPacket parser.MESSAGE (str "a") parser.NoOption], None)).
Proof.
  split; [reflexivity|].
  apply (Decode_after_encoded_prefix scenario.batch scenario.wire (str "2:4a")).
  - reflexivity.
  - vm_compute. discriminate.
  - reflexivity.
Defined.

Lemma Encode_stops_at_first_error_witness :
  parser.writePacket [] (parser.mkPacket parser.MESSAGE ["255"%byte] parser.NoOption)
  = Err "invalid UTF-8"%string
  /\ parser.Encode (scenario.batch
                      ++ parser.mkPacket parser.MESSAGE ["255"%byte] parser.NoOption
                      :: [parser.NewPacket parser.MESSAGE scenario.hello])
     = Err "invalid UTF-8"%string.
Proof.
  split; [reflexivity|].
  apply (Encode_stops_at_first_error
           scenario.batch (parser.mkPacket parser.MESSAGE ["255"%byte] parser.NoOption)
           [parser.NewPacket parser.MESSAGE scenario.hello] scenario.wire).
  - reflexivity.
  - reflexivity.
Defined.

Lemma run_never_replaces_a_transport_witness :
  let upgrade := parser.NewPacketCustom parser.UPGRADE [] parser.NoOption in
  let cs := [eio.CallAccept upgrade; eio.CallSetTransport 3%nat; eio.CallClose] in
  let w' := snd (eio.run scenario.write_ok scenario.close_ok cs scenario.upgrading) in
  eio.transportPrimary (eio.sock scenario.upgrading) = Some scenario.websocket
  /\ eio.transportBackup (eio.sock scenario.upgrading) = Some scenario.polling
  /\ eio.transportPrimary (eio.sock w') = Some scenario.websocket
  /\ (eio.transportBackup (eio.sock w') = Some scenario.polling
      \/ (eio.transportBackup (eio.sock w') = None
          /\ eio.transportPrimary (eio.sock w') <> None)).
Proof.
  cbv zeta. split; [reflexivity|]. split; [reflexivity|].
  pose (T := run_never_replaces_a_transport
               scenario.write_ok scenario.close_ok
               [eio.CallAccept (parser.NewPacketCustom parser.UPGRADE [] parser.NoOption);
                eio.CallSetTransport 3%nat; eio.CallClose]
               scenario.upgrading).
  split.
  - exact (proj1 T scenario.websocket eq_refl).
  - exact (proj1 (proj2 T) scenario.polling eq_refl).
Defined.

Lemma setTransport_fills_backup_then_primary_witness :
  let w := eio.newWorld (eio.newSocket "abc" 1000) in
  eio.bind (eio.setTransport scenario.polling)
           (fun r1 =>
              eio.bind (eio.setTransport scenario.websocket)
                       (fun r2 =>
                          eio.bind (eio.setTransport 3%nat)
                                   (fun r3 => eio.ret (r1, r2, r3)))) w
  = (Done (None, None, Some "transports is full"%string),
     eio.mkWorld (eio.set_transportPrimary
                    (Some scenario.websocket)
                    (eio.set_transportBackup (Some scenario.polling) (eio.sock w)))
                 (eio.trace w) (eio.spawned w)).
Proof.
  cbv zeta.
  apply (setTransport_fills_backup_then_primary
           scenario.polling scenario.websocket 3%nat
           (eio.newWorld (eio.newSocket "abc" 1000))); reflexivity.
Defined.

Lemma Close_closes_transports_then_notifies_witness :
  eio.heartbeat (eio.sock scenario.upgradingZeroed) = 0%N
  /\ eio.Close scenario.close_fails scenario.upgradingZeroed
     = (Done tt,
        eio.mkWorld
          (eio.sock scenario.upgradingZeroed)
          [eio.TransportClose scenario.websocket; eio.TransportClose scenario.polling;
           eio.CloseHandler
             scenario.onClose
             "use of closed network connection, use of closed network connection"]
          []).
Proof.
  split; [reflexivity|].
  apply (Close_closes_transports_then_notifies scenario.close_fails scenario.upgradingZeroed).
  reflexivity.
Defined.

Lemma messages_reach_handlers_in_registration_order_witness :
  let packet := parser.NewPacket parser.MESSAGE scenario.hello in
  eio.bind (eio.for_each [Some 5%nat; None; Some 6%nat] eio.OnMessage)
           (fun _ => eio.accept scenario.close_ok packet) scenario.opened
  = (Done None,
     eio.mkWorld (eio.set_msgHandlers [5%nat; 6%nat] (eio.sock scenario.opened))
                 [eio.MsgHandler 5%nat (str "hello"); eio.MsgHandler 6%nat (str "hello")]
                 []).
Proof.
  cbv zeta.
  apply (messages_reach_handlers_in_registration_order
           scenario.close_ok [Some 5%nat; None; Some 6%nat]
           (parser.NewPacket parser.MESSAGE scenario.hello) scenario.opened).
  reflexivity.
Defined.

Lemma upgrade_outside_window_only_notifies_witness :
  let packet := parser.NewPacketCustom parser.UPGRADE [] parser.NoOption in
  let w := snd (eio.OnUpgrade (Some scenario.onUpgrade) scenario.opened) in
  eio.transportPrimary (eio.sock w) = None
  /\ eio.accept scenario.close_ok packet w
     = (Done None,
        eio.mkWorld (eio.sock w) [eio.UpgradeHandler scenario.onUpgrade] []).
Proof.
  cbv zeta. split; [reflexivity|].
  apply (upgrade_outside_window_only_notifies
           scenario.close_ok (parser.NewPacketCustom parser.UPGRADE [] parser.NoOption)
           (snd (eio.OnUpgrade (Some scenario.onUpgrade) scenario.opened))).
  - reflexivity.
  - left. reflexivity.
Defined.

Lemma ping_answered_on_transport_in_use_witness :
  let packet := parser.NewPacketCustom parser.PING scenario.probe parser.NoOption in
  eio.socketImpl_Transport (eio.sock scenario.upgrading) = Some scenario.websocket
  /\ eio.bind (eio.accept scenario.close_ok packet)
              (fun _ => eio.schedule scenario.write_ok 2000) scenario.upgrading
     = (Done tt,
        eio.mkWorld (eio.sock scenario.upgrading)
                    [eio.TransportWrite
                       scenario.websocket
                       (parser.NewPacketCustom parser.PONG scenario.probe parser.NoOption)]
                    []).
Proof.
  cbv zeta. split; [reflexivity|].
  apply (ping_answered_on_transport_in_use
           scenario.write_ok scenario.close_ok
           (parser.NewPacketCustom parser.PING scenario.probe parser.NoOption)
           2000%N scenario.upgrading); reflexivity.
Defined.

Lemma isLost_compares_elapsed_milliseconds_witness :
  eio.heartbeat (eio.sock scenario.opened) = 1000%N
  /\ eio.isLost 1060 25000 (eio.sock scenario.opened) = true
  /\ eio.isLost 1020 25000 (eio.sock scenario.opened) = false.
Proof.
  split; [reflexivity|]. split.
  - apply (isLost_compares_elapsed_milliseconds 1060 25000 (eio.sock scenario.opened)).
    + vm_compute. discriminate.
    + reflexivity.
  - apply (isLost_compares_elapsed_milliseconds 1020 25000 (eio.sock scenario.opened)).
    + vm_compute. discriminate.
    + reflexivity.
Defined.
